(** * TonyPi pose mimic: the per-frame kinematic mapping and smoothing engine

    Shallow embedding of [scripts/tonypi_pose_mimic.py], and of the
    servo controller of [scripts/servo_reciever.py].

    Numbers.  Python [int] is [Z].  Python [float] is modelled by exact
    arithmetic: rationals [Q] for the landmark coordinates and for
    [val_map] (whose callers only add, subtract, multiply and divide),
    and real numbers [R] inside [vector_2d_angle], which needs a square
    root and an arc tangent.  Rounding, signed zeros, infinities and NaN
    are outside the model.

    State.  The dictionary [self.last_servos] is a [gmap Z Z], threaded
    through the methods by a state-and-exception monad; the only
    exception the per-frame code can raise in this model is the
    [IndexError] of [landmarks[idx]]. *)

From Stdlib Require Import ZArith QArith Qround Reals Lra Lia List String Ascii.
From Stdlib Require Import DecimalString DecimalPos DecimalZ.
From Stdlib Require Lqa.
From stdpp Require Import base option list gmap.
Import ListNotations.

Local Open Scope Z_scope.

(** ** Numeric helpers *)

(** Python's [int(x)] on a float: truncation toward zero. *)
Definition py_int (q : Q) : Z := Z.quot (Qnum q) (Z.pos (Qden q)).

(** [def val_map(x, in_min, in_max, out_min, out_max)] *)
Definition val_map (x in_min in_max out_min out_max : Q) : Q :=
  ((x - in_min) * (out_max - out_min) / (in_max - in_min) + out_min)%Q.

(** [def clamp_servo(value, min_val=125, max_val=875)] *)
Definition clamp_servo_in (value min_val max_val : Z) : Z :=
  Z.max min_val (Z.min max_val value).

Definition clamp_servo (value : Z) : Z := clamp_servo_in value 125 875.

(** ** [vector_2d_angle] *)

Module Angle.
Local Open Scope R_scope.

Definition vec : Type := R * R.

(** [np.linalg.norm], [np.dot] and (for 2-vectors) [np.cross]. *)
Definition norm (v : vec) : R := sqrt (fst v * fst v + snd v * snd v).
Definition dot (v1 v2 : vec) : R := fst v1 * fst v2 + snd v1 * snd v2.
Definition cross (v1 v2 : vec) : R := fst v1 * snd v2 - snd v1 * fst v2.

(** [np.clip(a, lo, hi)] is [minimum(maximum(a, lo), hi)]. *)
Definition clip (a lo hi : R) : R := Rmin (Rmax a lo) hi.

(** [np.arctan2(y, x)] on real numbers. *)
Definition arctan2 (y x : R) : R :=
  if Rlt_dec 0 x then atan (y / x)
  else if Rlt_dec x 0 then
         if Rle_dec 0 y then atan (y / x) + PI else atan (y / x) - PI
  else if Rlt_dec 0 y then PI / 2
  else if Rlt_dec y 0 then - (PI / 2)
  else 0.

(** [np.degrees] *)
Definition degrees (r : R) : R := r * 180 / PI.

(** Python's [int(x)] on a real: truncation toward zero. *)
Definition trunc (r : R) : Z :=
  if Rle_dec 0 r then Int_part r else (- Int_part (- r))%Z.

(** [def vector_2d_angle(v1, v2)] *)
Definition vector_2d_angle (v1 v2 : vec) : option Z :=
  let d := norm v1 * norm v2 in
  if Req_dec_T d 0 then None
  else
    let cos := clip (dot v1 v2 / d) (-1) 1 in
    let sin := clip (cross v1 v2 / d) (-1) 1 in
    Some (trunc (degrees (arctan2 sin cos))).

End Angle.

(** ** Data model *)

(** One MediaPipe landmark: [lm.x], [lm.y] normalised, [lm.z] relative depth. *)
Record Landmark : Type := mkLandmark { lm_x : Q; lm_y : Q; lm_z : Q }.

(** [@dataclass class ServoCommand] *)
Record ServoCommand : Type := mkServoCommand {
  servo_id : Z;
  position : Z;
  name : string
}.

(** The part of [self] the per-frame code reads and writes. *)
Record TonyPiPoseMimic : Type := mkMimic {
  full_body : bool;
  last_servos : gmap Z Z
}.

(** Class attributes. *)
Definition SERVO_MIN : Z := 125.
Definition SERVO_MAX : Z := 875.
Definition SMOOTHING_THRESHOLD : Z := 25.

(** [self.last_servos = {}] in [__init__]. *)
Definition init (fb : bool) : TonyPiPoseMimic := mkMimic fb ∅.

(** The servo map printed by [main]'s help text. *)
Definition arm_servos : list Z := [6; 7; 8; 14; 15; 16].
Definition hip_servos : list Z := [3; 4; 11; 12].
Definition knee_servos : list Z := [2; 10].

Definition tracked (fb : bool) : list Z :=
  if fb then arm_servos ++ hip_servos ++ knee_servos else arm_servos.

(** ** State and exceptions *)

Inductive exn : Type := IndexError.

Inductive result (A : Type) : Type :=
| Ok (a : A)
| Raise (e : exn).
Arguments Ok {A} a.
Arguments Raise {A} e.

Definition M (A : Type) : Type := TonyPiPoseMimic -> result A * TonyPiPoseMimic.

Definition ret {A} (a : A) : M A := fun self => (Ok a, self).

Definition raise {A} (e : exn) : M A := fun self => (Raise e, self).

Definition bind {A B} (m : M A) (k : A -> M B) : M B :=
  fun self =>
    match m self with
    | (Ok a, self') => k a self'
    | (Raise e, self') => (Raise e, self')
    end.

Notation "x <- m ;; k" := (bind m (fun x => k))
  (at level 100, m at next level, right associativity).

(** ** Methods of [TonyPiPoseMimic] *)

(** [landmarks[idx]] on the Python list of landmarks. *)
Definition index (landmarks : list Landmark) (idx : nat) : M Landmark :=
  match landmarks !! idx with
  | Some lm => ret lm
  | None => raise IndexError
  end.

(** [def get_point(self, landmarks, idx, width, height)] *)
Definition get_point (landmarks : list Landmark) (idx : nat) (width height : Z)
  : M (Z * Z) :=
  lm <- index landmarks idx ;;
  ret (py_int (lm_x lm * inject_Z width), py_int (lm_y lm * inject_Z height)).

(** [def smooth_servo(self, servo_id, new_value)] *)
Definition smooth_servo (servo_id new_value : Z) : M Z :=
  fun self =>
    match last_servos self !! servo_id with
    | Some last =>
        if Z.abs (last - new_value) <? SMOOTHING_THRESHOLD
        then (Ok last, self)
        else (Ok new_value,
              mkMimic (full_body self) (<[servo_id := new_value]> (last_servos self)))
    | None =>
        (Ok new_value,
         mkMimic (full_body self) (<[servo_id := new_value]> (last_servos self)))
    end.

(** [np.array(p) - np.array(q)] on pixel points. *)
Definition vsub (p q : Z * Z) : Z * Z := (fst p - fst q, snd p - snd q).

Definition to_vec (v : Z * Z) : Angle.vec := (IZR (fst v), IZR (snd v)).

(** [vector_2d_angle] as the methods call it, on integer pixel vectors. *)
Definition angle (v1 v2 : Z * Z) : option Z :=
  Angle.vector_2d_angle (to_vec v1) (to_vec v2).

(** [clamp_servo(int(val_map(x, in_min, in_max, out_min, out_max)))] *)
Definition servo_of (x in_min in_max out_min out_max : Q) : Z :=
  clamp_servo (py_int (val_map x in_min in_max out_min out_max)).

(** [def calculate_arm_servos(self, landmarks, width, height)] *)
Definition calculate_arm_servos (landmarks : list Landmark) (width height : Z)
  : M (list ServoCommand) :=
  let commands := [] in
  left_shoulder <- get_point landmarks 11 width height ;;
  right_shoulder <- get_point landmarks 12 width height ;;
  left_elbow <- get_point landmarks 13 width height ;;
  right_elbow <- get_point landmarks 14 width height ;;
  left_wrist <- get_point landmarks 15 width height ;;
  right_wrist <- get_point landmarks 16 width height ;;
  let left_ref := (width, snd left_shoulder) in
  let right_ref := (0, snd right_shoulder) in
  let left_shoulder_angle :=
    angle (vsub left_shoulder left_ref) (vsub left_shoulder left_elbow) in
  let left_elbow_angle :=
    angle (vsub left_elbow left_shoulder) (vsub left_wrist left_elbow) in
  let right_shoulder_angle :=
    angle (vsub right_shoulder right_ref) (vsub right_shoulder right_elbow) in
  let right_elbow_angle :=
    angle (vsub right_elbow right_shoulder) (vsub right_wrist right_elbow) in
  match left_shoulder_angle, left_elbow_angle,
        right_shoulder_angle, right_elbow_angle with
  | Some lsa, Some lea, Some rsa, Some rea =>
      servo15 <- smooth_servo 15
        (servo_of (inject_Z lsa) (-90) 90 (inject_Z SERVO_MIN) (inject_Z SERVO_MAX)) ;;
      let commands := commands ++ [mkServoCommand 15 servo15 "R_shoulder_side"] in
      servo14 <- smooth_servo 14
        (servo_of (inject_Z lea) (-90) 90 (inject_Z SERVO_MIN) (inject_Z SERVO_MAX)) ;;
      let commands := commands ++ [mkServoCommand 14 servo14 "R_elbow"] in
      servo7 <- smooth_servo 7
        (servo_of (inject_Z rsa) (-90) 90 (inject_Z SERVO_MIN) (inject_Z SERVO_MAX)) ;;
      let commands := commands ++ [mkServoCommand 7 servo7 "L_shoulder_side"] in
      servo6 <- smooth_servo 6
        (servo_of (inject_Z rea) (-90) 90 (inject_Z SERVO_MIN) (inject_Z SERVO_MAX)) ;;
      let commands := commands ++ [mkServoCommand 6 servo6 "L_elbow"] in
      ret commands
  | _, _, _, _ => ret commands
  end.

(** [def calculate_shoulder_forward_servos(self, landmarks, width, height)] *)
Definition calculate_shoulder_forward_servos
  (landmarks : list Landmark) (width height : Z) : M (list ServoCommand) :=
  let commands := [] in
  left_shoulder <- index landmarks 11 ;;
  right_shoulder <- index landmarks 12 ;;
  left_wrist <- index landmarks 15 ;;
  right_wrist <- index landmarks 16 ;;
  let left_z_diff := (lm_z left_shoulder - lm_z left_wrist)%Q in
  let right_z_diff := (lm_z right_shoulder - lm_z right_wrist)%Q in
  servo16 <- smooth_servo 16 (servo_of left_z_diff (-3 # 10) (3 # 10) 500 125) ;;
  let commands := commands ++ [mkServoCommand 16 servo16 "R_shoulder_fwd"] in
  servo8 <- smooth_servo 8 (servo_of right_z_diff (-3 # 10) (3 # 10) 500 900) ;;
  let commands := commands ++ [mkServoCommand 8 servo8 "L_shoulder_fwd"] in
  ret commands.

(** [def calculate_hip_servos(self, landmarks, width, height)] *)
Definition calculate_hip_servos (landmarks : list Landmark) (width height : Z)
  : M (list ServoCommand) :=
  let commands := [] in
  left_hip <- get_point landmarks 23 width height ;;
  right_hip <- get_point landmarks 24 width height ;;
  left_knee <- get_point landmarks 25 width height ;;
  right_knee <- get_point landmarks 26 width height ;;
  let left_hip_ref := (fst left_hip, snd left_hip + 100) in
  let right_hip_ref := (fst right_hip, snd right_hip + 100) in
  let left_hip_side_angle :=
    angle (vsub left_hip left_hip_ref) (vsub left_hip left_knee) in
  let right_hip_side_angle :=
    angle (vsub right_hip right_hip_ref) (vsub right_hip right_knee) in
  commands <-
    match left_hip_side_angle with
    | Some a =>
        servo4 <- smooth_servo 4 (servo_of (inject_Z a) (-45) 45 450 750) ;;
        ret (commands ++ [mkServoCommand 4 servo4 "R_hip_side"])
    | None => ret commands
    end ;;
  commands <-
    match right_hip_side_angle with
    | Some a =>
        servo12 <- smooth_servo 12 (servo_of (inject_Z a) (-45) 45 250 550) ;;
        ret (commands ++ [mkServoCommand 12 servo12 "L_hip_side"])
    | None => ret commands
    end ;;
  left_hip_lm <- index landmarks 23 ;;
  right_hip_lm <- index landmarks 24 ;;
  left_knee_lm <- index landmarks 25 ;;
  right_knee_lm <- index landmarks 26 ;;
  let left_hip_z := (lm_z left_hip_lm - lm_z left_knee_lm)%Q in
  let right_hip_z := (lm_z right_hip_lm - lm_z right_knee_lm)%Q in
  servo3 <- smooth_servo 3 (servo_of left_hip_z (-2 # 10) (2 # 10) 700 300) ;;
  let commands := commands ++ [mkServoCommand 3 servo3 "R_hip_front"] in
  servo11 <- smooth_servo 11 (servo_of right_hip_z (-2 # 10) (2 # 10) 300 700) ;;
  let commands := commands ++ [mkServoCommand 11 servo11 "L_hip_front"] in
  ret commands.

(** [def calculate_knee_servos(self, landmarks, width, height)] *)
Definition calculate_knee_servos (landmarks : list Landmark) (width height : Z)
  : M (list ServoCommand) :=
  let commands := [] in
  left_hip <- get_point landmarks 23 width height ;;
  right_hip <- get_point landmarks 24 width height ;;
  left_knee <- get_point landmarks 25 width height ;;
  right_knee <- get_point landmarks 26 width height ;;
  left_ankle <- get_point landmarks 27 width height ;;
  right_ankle <- get_point landmarks 28 width height ;;
  let left_knee_angle :=
    angle (vsub left_hip left_knee) (vsub left_ankle left_knee) in
  let right_knee_angle :=
    angle (vsub right_hip right_knee) (vsub right_ankle right_knee) in
  commands <-
    match left_knee_angle with
    | Some a =>
        let angle_abs := Z.abs a in
        servo2 <- smooth_servo 2 (servo_of (inject_Z angle_abs) 90 180 150 390) ;;
        ret (commands ++ [mkServoCommand 2 servo2 "R_knee"])
    | None => ret commands
    end ;;
  commands <-
    match right_knee_angle with
    | Some a =>
        let angle_abs := Z.abs a in
        servo10 <- smooth_servo 10 (servo_of (inject_Z angle_abs) 90 180 850 610) ;;
        ret (commands ++ [mkServoCommand 10 servo10 "L_knee"])
    | None => ret commands
    end ;;
  ret commands.

(** [def calculate_servo_commands(self, landmarks, width, height)] *)
Definition calculate_servo_commands (landmarks : list Landmark) (width height : Z)
  : M (option (list ServoCommand)) :=
  let commands := [] in
  arm <- calculate_arm_servos landmarks width height ;;
  let commands := commands ++ arm in
  fwd <- calculate_shoulder_forward_servos landmarks width height ;;
  let commands := commands ++ fwd in
  commands <-
    (fun self =>
       if full_body self then
         (hip <- calculate_hip_servos landmarks width height ;;
          let commands := commands ++ hip in
          knee <- calculate_knee_servos landmarks width height ;;
          let commands := commands ++ knee in
          ret commands) self
       else ret commands self) ;;
  ret (match commands with [] => None | _ => Some commands end).

(** ** Reference definitions taken from the specification *)

(** The affine map through [(in_min, out_min)] and [(in_max, out_max)]. *)
Definition slope (in_min in_max out_min out_max : Q) : Q :=
  ((out_max - out_min) / (in_max - in_min))%Q.

Definition affine_interpolation (x in_min in_max out_min out_max : Q) : Q :=
  (out_min + slope in_min in_max out_min out_max * (x - in_min))%Q.

(** ** The per-frame computation as a list of candidates

    Every method above first reads landmarks, then computes raw signals,
    and finally passes each candidate position through [smooth_servo].
    The definitions below separate the pure part (which candidates a
    frame yields, and whether a landmark lookup fails) from the stateful
    part (smoothing the candidates in order).  [calculate_servo_commands]
    is proved equal to [frame_result], which runs [plan], before either
    is used. *)

(** A candidate: actuator id, clamped position, name. *)
Definition cand : Type := Z * Z * string.

Definition cand_id (c : cand) : Z := fst (fst c).
Definition cand_value (c : cand) : Z := snd (fst c).
Definition cand_name (c : cand) : string := snd c.

Definition emit (c : cand) : M ServoCommand :=
  p <- smooth_servo (cand_id c) (cand_value c) ;;
  ret (mkServoCommand (cand_id c) p (cand_name c)).

Fixpoint smooth_all (cs : list cand) : M (list ServoCommand) :=
  match cs with
  | [] => ret []
  | c :: cs' =>
      x <- emit c ;;
      xs <- smooth_all cs' ;;
      ret (x :: xs)
  end.

(** The pixel point [get_point] returns for a landmark that is present. *)
Definition pixel (lm : Landmark) (width height : Z) : Z * Z :=
  (py_int (lm_x lm * inject_Z width), py_int (lm_y lm * inject_Z height)).

(** The four planar arm angles, from the six arm landmarks. *)
Definition left_shoulder_angle (width height : Z) (l11 l13 : Landmark) : option Z :=
  let left_shoulder := pixel l11 width height in
  angle (vsub left_shoulder (width, snd left_shoulder))
        (vsub left_shoulder (pixel l13 width height)).

Definition left_elbow_angle (width height : Z) (l11 l13 l15 : Landmark) : option Z :=
  let left_elbow := pixel l13 width height in
  angle (vsub left_elbow (pixel l11 width height))
        (vsub (pixel l15 width height) left_elbow).

Definition right_shoulder_angle (width height : Z) (l12 l14 : Landmark) : option Z :=
  let right_shoulder := pixel l12 width height in
  angle (vsub right_shoulder (0, snd right_shoulder))
        (vsub right_shoulder (pixel l14 width height)).

Definition right_elbow_angle (width height : Z) (l12 l14 l16 : Landmark) : option Z :=
  let right_elbow := pixel l14 width height in
  angle (vsub right_elbow (pixel l12 width height))
        (vsub (pixel l16 width height) right_elbow).

Definition arm_cands (width height : Z) (l11 l12 l13 l14 l15 l16 : Landmark)
  : list cand :=
  match left_shoulder_angle width height l11 l13,
        left_elbow_angle width height l11 l13 l15,
        right_shoulder_angle width height l12 l14,
        right_elbow_angle width height l12 l14 l16 with
  | Some lsa, Some lea, Some rsa, Some rea =>
      [ (15, servo_of (inject_Z lsa) (-90) 90 (inject_Z SERVO_MIN) (inject_Z SERVO_MAX),
         "R_shoulder_side"%string);
        (14, servo_of (inject_Z lea) (-90) 90 (inject_Z SERVO_MIN) (inject_Z SERVO_MAX),
         "R_elbow"%string);
        (7, servo_of (inject_Z rsa) (-90) 90 (inject_Z SERVO_MIN) (inject_Z SERVO_MAX),
         "L_shoulder_side"%string);
        (6, servo_of (inject_Z rea) (-90) 90 (inject_Z SERVO_MIN) (inject_Z SERVO_MAX),
         "L_elbow"%string) ]
  | _, _, _, _ => []
  end.

Definition fwd_cands (l11 l12 l15 l16 : Landmark) : list cand :=
  [ (16, servo_of (lm_z l11 - lm_z l15) (-3 # 10) (3 # 10) 500 125,
     "R_shoulder_fwd"%string);
    (8, servo_of (lm_z l12 - lm_z l16) (-3 # 10) (3 # 10) 500 900,
     "L_shoulder_fwd"%string) ].

(** The planar hip angle against the vertical through the hip. *)
Definition hip_side_angle (width height : Z) (hip knee : Landmark) : option Z :=
  let p := pixel hip width height in
  angle (vsub p (fst p, snd p + 100)) (vsub p (pixel knee width height)).

Definition opt_cand (a : option Z) (f : Z -> cand) : list cand :=
  match a with
  | Some v => [f v]
  | None => []
  end.

Definition hip_cands (width height : Z) (l23 l24 l25 l26 : Landmark) : list cand :=
  opt_cand (hip_side_angle width height l23 l25)
    (fun a => (4, servo_of (inject_Z a) (-45) 45 450 750, "R_hip_side"%string))
  ++ opt_cand (hip_side_angle width height l24 l26)
    (fun a => (12, servo_of (inject_Z a) (-45) 45 250 550, "L_hip_side"%string))
  ++ [ (3, servo_of (lm_z l23 - lm_z l25) (-2 # 10) (2 # 10) 700 300,
        "R_hip_front"%string);
       (11, servo_of (lm_z l24 - lm_z l26) (-2 # 10) (2 # 10) 300 700,
        "L_hip_front"%string) ].

Definition knee_angle (width height : Z) (hip knee ankle : Landmark) : option Z :=
  let k := pixel knee width height in
  angle (vsub (pixel hip width height) k) (vsub (pixel ankle width height) k).

Definition knee_cands (width height : Z) (l23 l24 l25 l26 l27 l28 : Landmark)
  : list cand :=
  opt_cand (knee_angle width height l23 l25 l27)
    (fun a => (2, servo_of (inject_Z (Z.abs a)) 90 180 150 390, "R_knee"%string))
  ++ opt_cand (knee_angle width height l24 l26 l28)
    (fun a => (10, servo_of (inject_Z (Z.abs a)) 90 180 850 610, "L_knee"%string)).

(** Lookups of several indices in the order the code performs them. *)
Fixpoint lookups (landmarks : list Landmark) (idxs : list nat)
  : option (list Landmark) :=
  match idxs with
  | [] => Some []
  | i :: idxs' =>
      match landmarks !! i with
      | Some lm =>
          match lookups landmarks idxs' with
          | Some lms => Some (lm :: lms)
          | None => None
          end
      | None => None
      end
  end.

(** Candidates of a frame, and the exception that ends it if a lookup fails. *)
Definition plan (fb : bool) (landmarks : list Landmark) (width height : Z)
  : list cand * option exn :=
  match lookups landmarks [11; 12; 13; 14; 15; 16]%nat with
  | Some [l11; l12; l13; l14; l15; l16] =>
      let arms := arm_cands width height l11 l12 l13 l14 l15 l16
                  ++ fwd_cands l11 l12 l15 l16 in
      if fb then
        match lookups landmarks [23; 24; 25; 26]%nat with
        | Some [l23; l24; l25; l26] =>
            let hips := hip_cands width height l23 l24 l25 l26 in
            match lookups landmarks [27; 28]%nat with
            | Some [l27; l28] =>
                (arms ++ hips ++ knee_cands width height l23 l24 l25 l26 l27 l28,
                 None)
            | _ => (arms ++ hips, Some IndexError)
            end
        | _ => (arms, Some IndexError)
        end
      else (arms, None)
  | _ => ([], Some IndexError)
  end.

(** [smooth_servo] and [smooth_all] on the dictionary alone. *)
Definition smooth (st : gmap Z Z) (servo_id new_value : Z) : Z * gmap Z Z :=
  match st !! servo_id with
  | Some last =>
      if Z.abs (last - new_value) <? SMOOTHING_THRESHOLD
      then (last, st)
      else (new_value, <[servo_id := new_value]> st)
  | None => (new_value, <[servo_id := new_value]> st)
  end.

Fixpoint smooth_list (cs : list cand) (st : gmap Z Z)
  : list ServoCommand * gmap Z Z :=
  match cs with
  | [] => ([], st)
  | c :: cs' =>
      let (p, st1) := smooth st (cand_id c) (cand_value c) in
      let (xs, st2) := smooth_list cs' st1 in
      (mkServoCommand (cand_id c) p (cand_name c) :: xs, st2)
  end.

(** What [calculate_servo_commands] hands back for a command list. *)
Definition nonempty (commands : list ServoCommand) : option (list ServoCommand) :=
  match commands with
  | [] => None
  | _ => Some commands
  end.

(** The result of one frame, in terms of its plan. *)
Definition frame_result (self : TonyPiPoseMimic)
  (landmarks : list Landmark) (width height : Z)
  : result (option (list ServoCommand)) * TonyPiPoseMimic :=
  let p := plan (full_body self) landmarks width height in
  let r := smooth_list (fst p) (last_servos self) in
  (match snd p with
   | Some e => Raise e
   | None => Ok (nonempty (fst r))
   end,
   mkMimic (full_body self) (snd r)).

(** ** The main loop, as far as the engine is concerned

    One [frame] is one iteration of the [while True] loop of [run] in
    which a video frame was read: the detector's [result.pose_landmarks],
    the image size, and whether the key 'f' was pressed. *)
Record frame : Type := mkFrame {
  pose_landmarks : list (list Landmark);
  frame_width : Z;
  frame_height : Z;
  key_f : bool
}.

(** [for landmarks in result.pose_landmarks: servo_commands = ...] *)
Fixpoint detect_commands (poses : list (list Landmark)) (width height : Z)
  (servo_commands : option (list ServoCommand))
  : M (option (list ServoCommand)) :=
  match poses with
  | [] => ret servo_commands
  | landmarks :: rest =>
      c <- calculate_servo_commands landmarks width height ;;
      detect_commands rest width height c
  end.

(** [self.full_body = not self.full_body] *)
Definition toggle_full_body : M unit :=
  fun self => (Ok tt, mkMimic (negb (full_body self)) (last_servos self)).

Definition run_iteration (f : frame) : M (option (list ServoCommand)) :=
  servo_commands <-
    detect_commands (pose_landmarks f) (frame_width f) (frame_height f) None ;;
  _ <- (if key_f f then toggle_full_body else ret tt) ;;
  ret servo_commands.

(** The command sets printed and displayed over a sequence of frames, and
    the engine at the end.  An exception leaves the loop. *)
Fixpoint run (frames : list frame) (self : TonyPiPoseMimic)
  : list (list ServoCommand) * TonyPiPoseMimic :=
  match frames with
  | [] => ([], self)
  | f :: rest =>
      match run_iteration f self with
      | (Ok (Some commands), self') =>
          let (out, final) := run rest self' in (commands :: out, final)
      | (Ok None, self') => run rest self'
      | (Raise _, self') => ([], self')
      end
  end.

(** A position inside the servo limits. *)
Definition in_range (p : Z) : Prop := SERVO_MIN <= p <= SERVO_MAX.

Definition commands_in_range (commands : list ServoCommand) : Prop :=
  Forall (fun c => in_range (position c)) commands.

Definition state_in_range (self : TonyPiPoseMimic) : Prop :=
  map_Forall (fun _ p => in_range p) (last_servos self).

Definition opt_in_range (oc : option (list ServoCommand)) : Prop :=
  match oc with
  | Some commands => commands_in_range commands
  | None => True
  end.

Definition result_in_range (r : result (option (list ServoCommand))) : Prop :=
  match r with
  | Ok oc => opt_in_range oc
  | Raise _ => True
  end.

(** ** Decidable views of the angle on pixel vectors *)

Definition is_zero (v : Z * Z) : bool := (fst v =? 0) && (snd v =? 0).

(** The test [d == 0] of [vector_2d_angle], on integer vectors. *)
Definition degenerate (v1 v2 : Z * Z) : bool := is_zero v1 || is_zero v2.

Definition zdot (v1 v2 : Z * Z) : Z := fst v1 * fst v2 + snd v1 * snd v2.
Definition zcross (v1 v2 : Z * Z) : Z := fst v1 * snd v2 - snd v1 * fst v2.

(** The angle when the rotation from [v1] to [v2] is a multiple of a
    quarter turn: cross = 0 or dot = 0. *)
Definition quarter_angle (c d : Z) : option Z :=
  if c =? 0 then
    if 0 <? d then Some 0 else if d <? 0 then Some 180 else None
  else if d =? 0 then
    if 0 <? c then Some 90 else Some (-90)
  else None.

(** ** Concrete frames

    A 640x480 image of a person standing upright with both arms held out
    horizontally.  Coordinates are dyadic, so the pixel conversion is
    exact; every depth is 0. *)
Definition t_pose_landmark (i : nat) : Landmark :=
  match i with
  | 11 => mkLandmark (5 # 8) (1 # 4) 0   (* left shoulder  (400, 120) *)
  | 12 => mkLandmark (3 # 8) (1 # 4) 0   (* right shoulder (240, 120) *)
  | 13 => mkLandmark (3 # 4) (1 # 4) 0   (* left elbow     (480, 120) *)
  | 14 => mkLandmark (1 # 4) (1 # 4) 0   (* right elbow    (160, 120) *)
  | 15 => mkLandmark (7 # 8) (1 # 4) 0   (* left wrist     (560, 120) *)
  | 16 => mkLandmark (1 # 8) (1 # 4) 0   (* right wrist    ( 80, 120) *)
  | 23 => mkLandmark (5 # 8) (1 # 2) 0   (* left hip       (400, 240) *)
  | 24 => mkLandmark (3 # 8) (1 # 2) 0   (* right hip      (240, 240) *)
  | 25 => mkLandmark (5 # 8) (3 # 4) 0   (* left knee      (400, 360) *)
  | 26 => mkLandmark (3 # 8) (3 # 4) 0   (* right knee     (240, 360) *)
  | 27 => mkLandmark (5 # 8) 1 0         (* left ankle     (400, 480) *)
  | 28 => mkLandmark (3 # 8) 1 0         (* right ankle    (240, 480) *)
  | _ => mkLandmark (1 # 2) (1 # 8) 0
  end%nat.

Definition t_pose : list Landmark := map t_pose_landmark (seq 0 33).

(** The T-pose with the left wrist on the left elbow. *)
Definition folded_wrist : list Landmark :=
  <[15%nat := t_pose_landmark 13]> t_pose.

(** The T-pose with the left shoulder on the left elbow: it differs from
    [t_pose] in landmark 11 only. *)
Definition moved_shoulder : list Landmark :=
  <[11%nat := t_pose_landmark 13]> t_pose.

(** Landmark indices the methods read, per mode. *)
Definition required (fb : bool) : list nat :=
  [11; 12; 13; 14; 15; 16]%nat
  ++ (if fb then [23; 24; 25; 26; 27; 28]%nat else []).

(** The T-pose cut after landmark 15: index 16 is absent. *)
Definition short_frame : list Landmark := take 16 t_pose.

(** The order in which a full frame emits its commands. *)
Definition emission_order (fb : bool) : list Z :=
  [15; 14; 7; 6; 16; 8] ++ (if fb then [4; 12; 3; 11; 2; 10] else []).

Definition defined (a : option Z) : bool :=
  match a with
  | Some _ => true
  | None => false
  end.

(** The guard [all(a is not None for a in [...])] of [calculate_arm_servos]. *)
Definition arms_defined (width height : Z) (l11 l12 l13 l14 l15 l16 : Landmark)
  : bool :=
  defined (left_shoulder_angle width height l11 l13)
  && defined (left_elbow_angle width height l11 l13 l15)
  && defined (right_shoulder_angle width height l12 l14)
  && defined (right_elbow_angle width height l12 l14 l16).

(** ** Planar joints

    The eight joints driven by [vector_2d_angle], named by the camera
    side of the landmarks they are computed from, as the code names its
    angle variables. *)
Inductive joint : Type :=
| LeftShoulder | LeftElbow | RightShoulder | RightElbow
| LeftHipSide | RightHipSide | LeftKnee | RightKnee.

(** The actuator each joint's angle is routed to (mirrored). *)
Definition joint_servo (j : joint) : Z :=
  match j with
  | LeftShoulder => 15
  | LeftElbow => 14
  | RightShoulder => 7
  | RightElbow => 6
  | LeftHipSide => 4
  | RightHipSide => 12
  | LeftKnee => 2
  | RightKnee => 10
  end.

Definition arm_joints : list joint :=
  [LeftShoulder; LeftElbow; RightShoulder; RightElbow].

Definition leg_joints : list joint :=
  [LeftHipSide; RightHipSide; LeftKnee; RightKnee].

(** The angle the code computes for a joint from the frame's landmarks. *)
Definition joint_angle (width height : Z) (landmarks : list Landmark) (j : joint)
  : option Z :=
  match j with
  | LeftShoulder =>
      match lookups landmarks [11; 13]%nat with
      | Some [l11; l13] => left_shoulder_angle width height l11 l13
      | _ => None
      end
  | LeftElbow =>
      match lookups landmarks [11; 13; 15]%nat with
      | Some [l11; l13; l15] => left_elbow_angle width height l11 l13 l15
      | _ => None
      end
  | RightShoulder =>
      match lookups landmarks [12; 14]%nat with
      | Some [l12; l14] => right_shoulder_angle width height l12 l14
      | _ => None
      end
  | RightElbow =>
      match lookups landmarks [12; 14; 16]%nat with
      | Some [l12; l14; l16] => right_elbow_angle width height l12 l14 l16
      | _ => None
      end
  | LeftHipSide =>
      match lookups landmarks [23; 25]%nat with
      | Some [l23; l25] => hip_side_angle width height l23 l25
      | _ => None
      end
  | RightHipSide =>
      match lookups landmarks [24; 26]%nat with
      | Some [l24; l26] => hip_side_angle width height l24 l26
      | _ => None
      end
  | LeftKnee =>
      match lookups landmarks [23; 25; 27]%nat with
      | Some [l23; l25; l27] => knee_angle width height l23 l25 l27
      | _ => None
      end
  | RightKnee =>
      match lookups landmarks [24; 26; 28]%nat with
      | Some [l24; l26; l28] => knee_angle width height l24 l26 l28
      | _ => None
      end
  end.

(** All four arm angles are defined in the frame. *)
Definition arm_group_defined (width height : Z) (landmarks : list Landmark)
  : bool :=
  defined (joint_angle width height landmarks LeftShoulder)
  && defined (joint_angle width height landmarks LeftElbow)
  && defined (joint_angle width height landmarks RightShoulder)
  && defined (joint_angle width height landmarks RightElbow).

(** Whether the code emits a command for the joint: the arm joints share
    one guard, the leg joints have one each. *)
Definition joint_emitted (width height : Z) (landmarks : list Landmark)
  (j : joint) : bool :=
  match j with
  | LeftShoulder | LeftElbow | RightShoulder | RightElbow =>
      arm_group_defined width height landmarks
  | _ => defined (joint_angle width height landmarks j)
  end.

(** The commands of a result; none when the call raised. *)
Definition commands_of (r : result (option (list ServoCommand)))
  : list ServoCommand :=
  match r with
  | Ok (Some commands) => commands
  | _ => []
  end.

(** ** Comparing two runs *)

(** The robot's right-side arm actuators: shoulder side, elbow, shoulder
    forward.  They are driven by the camera-left landmarks 11, 13, 15. *)
Definition right_arm_servos : list Z := [15; 14; 16].

(** The actuators behind the arm guard, and actuator 16. *)
Definition guarded_or_right : list Z := [15; 14; 7; 6; 16].

Definition outside (excluded : list Z) (servo : Z) : bool :=
  negb (existsb (Z.eqb servo) excluded).

(** The command a result holds for an actuator, if any. *)
Definition command_for (servo : Z) (r : result (option (list ServoCommand)))
  : option ServoCommand :=
  List.find (fun c => servo_id c =? servo) (commands_of r).

(** The T-pose with the left shoulder moved along the arm, to (440, 120). *)
Definition shifted_shoulder : list Landmark :=
  <[11%nat := mkLandmark (11 # 16) (1 # 4) (1 # 10)]> t_pose.

(** ** Further views of a result *)

(** The memory of a result's final state, seen from an actuator: the
    position of its command if the frame commanded it, otherwise what
    was stored before. *)
Definition stored_after (before : gmap Z Z)
  (r : result (option (list ServoCommand))) (servo : Z) : option Z :=
  match command_for servo r with
  | Some c => Some (position c)
  | None => before !! servo
  end.

(** The name each command literal in the [calculate_*] methods gives to
    its actuator. *)
Definition servo_name (servo : Z) : string :=
  match servo with
  | 15 => "R_shoulder_side"
  | 14 => "R_elbow"
  | 7 => "L_shoulder_side"
  | 6 => "L_elbow"
  | 16 => "R_shoulder_fwd"
  | 8 => "L_shoulder_fwd"
  | 4 => "R_hip_side"
  | 12 => "L_hip_side"
  | 3 => "R_hip_front"
  | 11 => "L_hip_front"
  | 2 => "R_knee"
  | 10 => "L_knee"
  | _ => ""
  end%string.

(** Landmark indices of the two legs, by camera side, and the actuators
    of the two legs, by robot side. *)
Definition left_leg_landmarks : list nat := [23; 25; 27]%nat.
Definition right_leg_landmarks : list nat := [24; 26; 28]%nat.
Definition right_leg_servos : list Z := [4; 3; 2].
Definition left_leg_servos : list Z := [12; 11; 10].

(** Limits the knee calibration keeps inside the servo limits: the
    standing-pose values of [STAND_POSE] for actuators 2 and 10. *)
Definition knee_limit (servo p : Z) : Prop :=
  (servo = 2 -> p <= 390) /\ (servo = 10 -> 610 <= p).

(** A vector stretched by a factor. *)
Definition scale (k : R) (v : Angle.vec) : Angle.vec :=
  ((k * fst v)%R, (k * snd v)%R).

(** The command a candidate turns into when its position is taken as it
    is. *)
Definition command_of_cand (c : cand) : ServoCommand :=
  mkServoCommand (cand_id c) (cand_value c) (cand_name c).

(** The candidate lies within the deadband of what the memory holds for
    its actuator. *)
Definition within_deadband (st : gmap Z Z) (c : cand) : Prop :=
  exists last,
    st !! cand_id c = Some last /\
    Z.abs (last - cand_value c) < SMOOTHING_THRESHOLD.

(** The command re-emitted for a candidate from the memory. *)
Definition held_command (st : gmap Z Z) (c : cand) : ServoCommand :=
  mkServoCommand (cand_id c) (default (cand_value c) (st !! cand_id c))
    (cand_name c).

(** ** Drawing the skeleton *)

(** [POSE_CONNECTIONS] *)
Definition POSE_CONNECTIONS : list (nat * nat) :=
  [ (0, 1); (1, 2); (2, 3); (3, 7); (0, 4); (4, 5); (5, 6); (6, 8);
    (9, 10); (11, 12); (11, 23); (12, 24); (23, 24);
    (11, 13); (13, 15); (15, 17); (15, 19); (15, 21); (17, 19);
    (12, 14); (14, 16); (16, 18); (16, 20); (16, 22); (18, 20);
    (23, 25); (25, 27); (27, 29); (27, 31); (29, 31);
    (24, 26); (26, 28); (28, 30); (28, 32); (30, 32) ]%nat.

(** The calls [draw_skeleton] makes on the image, in order:
    [cv2.line(image, pt1, pt2, color, thickness)] and
    [cv2.circle(image, center, radius, color, thickness)]. *)
Inductive drawing : Type :=
| line (pt1 pt2 : Z * Z) (color : Z * Z * Z) (thickness : Z)
| circle (center : Z * Z) (radius : Z) (color : Z * Z * Z) (thickness : Z).

(** [points[i]] on a Python list. *)
Definition at_index {A : Type} (l : list A) (i : nat) : M A :=
  match l !! i with
  | Some x => ret x
  | None => raise IndexError
  end.

(** [for s, e in POSE_CONNECTIONS: if s < len(points) and e < len(points): ...] *)
Fixpoint draw_connections (points : list (Z * Z)) (connections : list (nat * nat))
  : M (list drawing) :=
  match connections with
  | [] => ret []
  | (s, e) :: rest =>
      drawn <-
        (if (s <? length points)%nat && (e <? length points)%nat then
           pt1 <- at_index points s ;;
           pt2 <- at_index points e ;;
           ret [line pt1 pt2 (255, 255, 255) 2]
         else ret []) ;;
      more <- draw_connections points rest ;;
      ret (drawn ++ more)
  end.

(** [for i in highlight_idx: if i < len(points): ...] *)
Fixpoint draw_highlights (points : list (Z * Z)) (highlight_idx : list nat)
  : M (list drawing) :=
  match highlight_idx with
  | [] => ret []
  | i :: rest =>
      drawn <-
        (if (i <? length points)%nat then
           pt <- at_index points i ;;
           ret [circle pt 8 (0, 255, 255) (-1)]
         else ret []) ;;
      more <- draw_highlights points rest ;;
      ret (drawn ++ more)
  end.

(** [def draw_skeleton(self, image, landmarks, width, height)]: the
    drawing calls made on [image]. *)
Definition draw_skeleton (landmarks : list Landmark) (width height : Z)
  : M (list drawing) :=
  let points :=
    map (fun lm => (py_int (lm_x lm * inject_Z width),
                    py_int (lm_y lm * inject_Z height))) landmarks in
  lines <- draw_connections points POSE_CONNECTIONS ;;
  let dots := map (fun pt => circle pt 4 (0, 255, 0) (-1)) points in
  highlights <-
    (fun self =>
       let highlight_idx :=
         [11; 12; 13; 14; 15; 16]%nat
         ++ (if full_body self then [23; 24; 25; 26; 27; 28]%nat else []) in
       draw_highlights points highlight_idx self) ;;
  ret (lines ++ dots ++ highlights).

Definition is_line (d : drawing) : bool :=
  match d with
  | line _ _ _ _ => true
  | circle _ _ _ _ => false
  end.

(** ** The frame-rate meter *)

(** [class FPS]; the clock value [time.time()] is an input. *)
Record FPS : Type := mkFPS { fps : Q; last_time : Q; current_time : Q }.

(** [FPS.__init__] *)
Definition FPS_init : FPS := mkFPS 0 0 0.

Inductive arith_exn : Type := ZeroDivisionError.

(** [def update(self)], with [now] the value [time.time()] returns. *)
Definition FPS_update (now : Q) (self : FPS) : (arith_exn + Q) * FPS :=
  let last := current_time self in
  if Qeq_bool last 0 then (inr (fps self), mkFPS (fps self) last now)
  else if Qeq_bool (now - last) 0
       then (inl ZeroDivisionError, mkFPS (fps self) last now)
       else
         let new_fps := (1 / (now - last))%Q in
         let f := if Qeq_bool (fps self) 0 then new_fps
                  else (new_fps * (1 # 10) + fps self * (9 # 10))%Q in
         (inr f, mkFPS f last now).

(** ** Formatting a command for the robot's console *)

(** Python's [str] of an [int]. *)
Definition py_str (z : Z) : string := NilZero.string_of_int (Z.to_int z).

(** [str] of a list of two-element lists of [int]s, as the f-string
    prints [servo_pairs]. *)
Definition repr_pair (p : Z * Z) : string :=
  ("[" ++ py_str (fst p) ++ ", " ++ py_str (snd p) ++ "]")%string.

Fixpoint join_pairs (l : list (Z * Z)) : string :=
  match l with
  | [] => ""
  | [p] => repr_pair p
  | p :: rest => (repr_pair p ++ ", " ++ join_pairs rest)%string
  end.

Definition repr_pairs (l : list (Z * Z)) : string :=
  ("[" ++ join_pairs l ++ "]")%string.

(** [def format_tonypi_command(self, commands)] *)
Definition format_tonypi_command (commands : list ServoCommand) : string :=
  let servo_pairs := map (fun cmd => (servo_id cmd, position cmd)) commands in
  ("board.bus_servo_set_position(0.1, " ++ repr_pairs servo_pairs ++ ")")%string.

(** Characters of a printed [int]. *)
Definition is_num_char (c : ascii) : bool :=
  existsb (Ascii.eqb c)
    ["-"; "0"; "1"; "2"; "3"; "4"; "5"; "6"; "7"; "8"; "9"]%char.

Fixpoint all_num (s : string) : bool :=
  match s with
  | EmptyString => true
  | String c s' => is_num_char c && all_num s'
  end.

(** ** The servo receiver ([scripts/servo_reciever.py])

    The robot SDK is an external collaborator.  A [board] is its state;
    [set_bus_servo_pulse] either succeeds or raises, and moves the board
    to a new state either way.  A controller holds a board, or none in
    test mode. *)
Module Receiver.

Definition NEUTRAL_PULSE : Z := 500.
Definition DEFAULT_ENABLED_SERVOS : list Z := [7; 8; 15; 16].

(** One call [set_bus_servo_pulse(servo_id, pulse, time_ms)]. *)
Record pulse_call : Type := mkCall { call_servo : Z; call_pulse : Z; call_time : Z }.

(** What a method did: the SDK calls it made, in order, and the servos
    it printed a warning for. *)
Record effects : Type := mkEffects {
  calls : list pulse_call;
  warnings : list Z
}.

Section Controller.

Variable board : Type.

(** [true] when the call raises. *)
Variable set_bus_servo_pulse : board -> pulse_call -> bool * board.

(** [self.controller]: a board, or [None] in test mode. *)
Definition ServoController : Type := option board.

(** The loop of [reset_to_neutral]: each call sits in its own
    [try ... except Exception]. *)
Fixpoint reset_loop (servos : list Z) (time_ms : Z) (b : board)
  : board * effects :=
  match servos with
  | [] => (b, mkEffects [] [])
  | servo_id :: rest =>
      let c := mkCall servo_id NEUTRAL_PULSE time_ms in
      let (raised, b1) := set_bus_servo_pulse b c in
      let (b2, e) := reset_loop rest time_ms b1 in
      (b2, mkEffects (c :: calls e)
             (if raised then servo_id :: warnings e else warnings e))
  end.

(** [def reset_to_neutral(self, servos=None, time_ms=500)] *)
Definition reset_to_neutral (servos : option (list Z)) (time_ms : Z)
  (self : ServoController) : ServoController * effects :=
  let servos := match servos with
                | None => DEFAULT_ENABLED_SERVOS
                | Some l => l
                end in
  match self with
  | Some b => let (b', e) := reset_loop servos time_ms b in (Some b', e)
  | None => (None, mkEffects [] [])
  end.


Section SetServos.

(** Keys and values of [servo_dict] as the JSON decoder delivers them,
    with Python's [int(...)] on each. *)
Variables K V : Type.
Variable int_key : K -> option Z.
Variable int_pulse : V -> option Z.




End SetServos.
End Controller.
End Receiver.

(** * Properties *)

(** ** Real-number facts behind [vector_2d_angle] *)

Module AngleFacts.
Import Angle.
Local Open Scope R_scope.

Lemma norm_nonneg (v : vec) : 0 <= norm v.
Proof. apply sqrt_pos. Qed.

Lemma sumsq_nonneg (a b : R) : 0 <= a * a + b * b.
Proof. nra. Qed.

Lemma norm_sqr (v : vec) : norm v * norm v = fst v * fst v + snd v * snd v.
Proof. unfold norm. apply sqrt_sqrt, sumsq_nonneg. Qed.

Lemma norm_zero_iff (v : vec) : norm v = 0 <-> v = (0, 0).
Proof.
  destruct v as [a b]; unfold norm; cbn [fst snd]; split.
  - intros H. apply sqrt_eq_0 in H; [|apply sumsq_nonneg].
    assert (a = 0) by nra. assert (b = 0) by nra. now subst.
  - intros [= -> ->]. replace (0 * 0 + 0 * 0) with 0 by ring. apply sqrt_0.
Qed.

Lemma d_zero_iff (v1 v2 : vec) :
  norm v1 * norm v2 = 0 <-> norm v1 = 0 \/ norm v2 = 0.
Proof.
  split.
  - apply Rmult_integral.
  - intros [-> | ->]; ring.
Qed.

(** Lagrange's identity: dot^2 + cross^2 = (|v1| |v2|)^2. *)
Lemma lagrange (v1 v2 : vec) :
  dot v1 v2 * dot v1 v2 + cross v1 v2 * cross v1 v2
  = (norm v1 * norm v2) * (norm v1 * norm v2).
Proof.
  transitivity ((norm v1 * norm v1) * (norm v2 * norm v2)); [|ring].
  rewrite !norm_sqr. unfold dot, cross. ring.
Qed.

Lemma clip_id (a lo hi : R) : lo <= a <= hi -> clip a lo hi = a.
Proof.
  intros [H1 H2]. unfold clip. rewrite Rmax_left by exact H1.
  now rewrite Rmin_left.
Qed.

Lemma ratio_bounded (a d : R) : 0 < d -> a * a <= d * d -> -1 <= a / d <= 1.
Proof.
  intros Hd Ha.
  assert (- d <= a <= d) as [H1 H2] by nra.
  split.
  - apply Rmult_le_reg_r with d; [exact Hd|]. unfold Rdiv.
    rewrite Rmult_assoc, Rinv_l by lra. lra.
  - apply Rmult_le_reg_r with d; [exact Hd|]. unfold Rdiv.
    rewrite Rmult_assoc, Rinv_l by lra. lra.
Qed.

(** [arctan2] only sees the direction of [(x, y)]. *)
Lemma arctan2_scale (y x d : R) : 0 < d -> arctan2 (y / d) (x / d) = arctan2 y x.
Proof.
  intros Hd.
  assert (Hi : 0 < / d) by now apply Rinv_0_lt_compat.
  assert (Hs : forall a, (0 < a / d <-> 0 < a) /\ (a / d < 0 <-> a < 0)
                         /\ (0 <= a / d <-> 0 <= a)).
  { intros a. unfold Rdiv. repeat split; intros H; nra. }
  assert (Hq : x <> 0 -> y / d / (x / d) = y / x).
  { intros Hx. field. lra. }
  unfold arctan2.
  destruct (Hs x) as (Hx1 & Hx2 & _), (Hs y) as (Hy1 & Hy2 & Hy3).
  repeat match goal with
         | |- context [Rlt_dec ?a ?b] => destruct (Rlt_dec a b)
         | |- context [Rle_dec ?a ?b] => destruct (Rle_dec a b)
         end; try tauto; try reflexivity; rewrite Hq; try reflexivity; lra.
Qed.

Lemma arctan2_bound (y x : R) : - PI < arctan2 y x <= PI.
Proof.
  pose proof PI_RGT_0 as Hpi.
  unfold arctan2.
  destruct (Rlt_dec 0 x) as [Hx|Hx].
  - pose proof (atan_bound (y / x)). lra.
  - destruct (Rlt_dec x 0) as [Hx'|Hx'].
    + assert (Hi : / x < 0) by now apply Rinv_lt_0_compat.
      destruct (Rle_dec 0 y) as [Hy|Hy].
      * assert (Hq : y / x <= 0) by (unfold Rdiv; nra).
        pose proof (atan_bound (y / x)).
        assert (atan (y / x) <= 0).
        { destruct Hq as [Hq|Hq].
          - apply atan_increasing in Hq. rewrite atan_0 in Hq. lra.
          - rewrite Hq, atan_0. lra. }
        lra.
      * assert (Hq : 0 < y / x) by (unfold Rdiv; nra).
        pose proof (atan_bound (y / x)).
        apply atan_increasing in Hq. rewrite atan_0 in Hq. lra.
    + destruct (Rlt_dec 0 y); [lra|]. destruct (Rlt_dec y 0); lra.
Qed.

Lemma degrees_bound (r : R) : - PI < r <= PI -> -180 < degrees r <= 180.
Proof.
  pose proof PI_RGT_0 as Hpi. intros [H1 H2]. unfold degrees, Rdiv.
  assert (Hi : 0 < / PI) by now apply Rinv_0_lt_compat.
  assert (E : PI * / PI = 1) by (apply Rinv_r; lra).
  split; nra.
Qed.

Lemma trunc_IZR (z : Z) : trunc (IZR z) = z.
Proof.
  unfold trunc. destruct (Rle_dec 0 (IZR z)).
  - symmetry. apply Int_part_spec. lra.
  - rewrite <- opp_IZR. rewrite <- (Int_part_spec (IZR (- z)) (- z)); [lia|lra].
Qed.

Lemma Int_part_nonneg (r : R) : 0 <= r -> (0 <= Int_part r)%Z.
Proof.
  intros Hr. destruct (base_Int_part r) as [_ Hb].
  apply Z.lt_succ_r, lt_IZR. rewrite succ_IZR. lra.
Qed.

Lemma trunc_bound (r : R) (lo hi : Z) :
  (lo < 0 <= hi)%Z -> IZR lo < r <= IZR hi -> (lo < trunc r <= hi)%Z.
Proof.
  intros [Hlo Hhi] [H1 H2]. unfold trunc.
  destruct (Rle_dec 0 r) as [Hr|Hr].
  - destruct (base_Int_part r) as [Ha Hb].
    pose proof (Int_part_nonneg r Hr). split; [lia|].
    apply le_IZR. lra.
  - destruct (base_Int_part (- r)) as [Ha Hb].
    assert (Hn : 0 <= - r) by lra.
    pose proof (Int_part_nonneg (- r) Hn). split; [|lia].
    apply lt_IZR. rewrite opp_IZR. lra.
Qed.

End AngleFacts.

(** ** The signed planar angle *)

Module AngleSpec.
Import Angle AngleFacts.
Local Open Scope R_scope.

Lemma vector_2d_angle_None (v1 v2 : vec) :
  vector_2d_angle v1 v2 = None <-> norm v1 = 0 \/ norm v2 = 0.
Proof.
  unfold vector_2d_angle. rewrite <- d_zero_iff.
  destruct (Req_dec_T (norm v1 * norm v2) 0); split;
    intros; congruence || tauto.
Qed.

Lemma vector_2d_angle_Some (v1 v2 : vec) :
  norm v1 * norm v2 <> 0 ->
  vector_2d_angle v1 v2
  = Some (trunc (degrees (arctan2 (cross v1 v2) (dot v1 v2)))).
Proof.
  intros Hd. unfold vector_2d_angle.
  destruct (Req_dec_T (norm v1 * norm v2) 0) as [E|_]; [contradiction|].
  assert (Hpos : 0 < norm v1 * norm v2).
  { pose proof (norm_nonneg v1). pose proof (norm_nonneg v2). nra. }
  pose proof (lagrange v1 v2) as L.
  rewrite !clip_id, arctan2_scale; trivial; apply ratio_bounded; trivial; nra.
Qed.

Lemma arctan2_one_zero : arctan2 1 0 = PI / 2.
Proof.
  unfold arctan2.
  destruct (Rlt_dec 0 0); [lra|]. destruct (Rlt_dec 0 1); [reflexivity|lra].
Qed.

Lemma degrees_half_pi : degrees (PI / 2) = 90.
Proof. pose proof PI_RGT_0. unfold degrees. field. lra. Qed.

End AngleSpec.

(** C8.  [vector_2d_angle] is a total function (no exception path).  It
    returns [None] exactly when one of the two vectors has zero
    magnitude; otherwise it returns the truncated angle in degrees of
    atan2(cross, dot), a value in (-180, 180].  On ((1,0),(0,1)) it
    returns 90 and on ((0,0),(1,1)) it returns [None]. *)
Theorem vector_2d_angle_spec :
  (forall v1 v2 : Angle.vec,
      match Angle.vector_2d_angle v1 v2 with
      | None => Angle.norm v1 = 0%R \/ Angle.norm v2 = 0%R
      | Some a =>
          Angle.norm v1 <> 0%R /\ Angle.norm v2 <> 0%R /\
          -180 < a <= 180 /\
          a = Angle.trunc
                (Angle.degrees
                   (Angle.arctan2 (Angle.cross v1 v2) (Angle.dot v1 v2)))
      end) /\
  Angle.vector_2d_angle (1%R, 0%R) (0%R, 1%R) = Some 90 /\
  Angle.vector_2d_angle (0%R, 0%R) (1%R, 1%R) = None.
Proof.
  split; [|split].
  - intros v1 v2.
    destruct (Angle.vector_2d_angle v1 v2) as [a|] eqn:E.
    + assert (Hd : (Angle.norm v1 * Angle.norm v2)%R <> 0%R).
      { intros Hd. apply AngleFacts.d_zero_iff, AngleSpec.vector_2d_angle_None in Hd.
        congruence. }
      rewrite (AngleSpec.vector_2d_angle_Some _ _ Hd) in E.
      injection E as <-.
      split; [|split; [|split]].
      * intros H0. apply Hd. rewrite H0. ring.
      * intros H0. apply Hd. rewrite H0. ring.
      * apply AngleFacts.trunc_bound; [lia|].
        apply AngleFacts.degrees_bound, AngleFacts.arctan2_bound.
      * reflexivity.
    + now apply AngleSpec.vector_2d_angle_None.
  - rewrite AngleSpec.vector_2d_angle_Some.
    + unfold Angle.cross, Angle.dot; cbn [fst snd].
      replace (1 * 1 - 0 * 0)%R with 1%R by ring.
      replace (1 * 0 + 0 * 1)%R with 0%R by ring.
      rewrite AngleSpec.arctan2_one_zero, AngleSpec.degrees_half_pi.
      now rewrite AngleFacts.trunc_IZR.
    + unfold Angle.norm; cbn [fst snd].
      replace (1 * 1 + 0 * 0)%R with 1%R by ring.
      replace (0 * 0 + 1 * 1)%R with 1%R by ring.
      rewrite sqrt_1. lra.
  - apply AngleSpec.vector_2d_angle_None. left.
    apply AngleFacts.norm_zero_iff. reflexivity.
Qed.

(** ** Range mapping and clamping *)

Lemma py_int_inject_Z (n : Z) : py_int (inject_Z n) = n.
Proof. unfold py_int; cbn. apply Z.quot_1_r. Qed.

Lemma clamp_servo_bounds (value : Z) :
  SERVO_MIN <= clamp_servo value <= SERVO_MAX.
Proof. unfold clamp_servo, clamp_servo_in, SERVO_MIN, SERVO_MAX. lia. Qed.

Lemma clamp_servo_id (value : Z) :
  SERVO_MIN <= value <= SERVO_MAX -> clamp_servo value = value.
Proof. unfold clamp_servo, clamp_servo_in, SERVO_MIN, SERVO_MAX. lia. Qed.

Lemma servo_of_bounds (x a b c d : Q) :
  SERVO_MIN <= servo_of x a b c d <= SERVO_MAX.
Proof. apply clamp_servo_bounds. Qed.

Lemma Qminus_zero_eq (a b : Q) : (a - b == 0)%Q -> (a == b)%Q.
Proof. intros H. rewrite <- (Qplus_0_l b), <- H. ring. Qed.

Lemma val_map_is_affine (x in_min in_max out_min out_max : Q) :
  ~ (in_min == in_max)%Q ->
  (val_map x in_min in_max out_min out_max
   == affine_interpolation x in_min in_max out_min out_max)%Q.
Proof.
  intros H. unfold val_map, affine_interpolation, slope. field.
  intros E. apply H. symmetry. now apply Qminus_zero_eq.
Qed.

(** C9.  For [in_min <> in_max], [val_map] is the affine map through
    [(in_min, out_min)] and [(in_max, out_max)]: it equals the
    interpolation formula, hits both end points, and has the same slope
    everywhere, so nothing is clamped and inputs outside the input range
    leave the output range.  [val_map(0, -90, 90, 125, 875) = 500]. *)
Theorem val_map_spec :
  (forall x in_min in_max out_min out_max : Q,
      ~ (in_min == in_max)%Q ->
      (val_map x in_min in_max out_min out_max
       == (x - in_min) * (out_max - out_min) / (in_max - in_min) + out_min)%Q /\
      (val_map x in_min in_max out_min out_max
       == affine_interpolation x in_min in_max out_min out_max)%Q /\
      (val_map in_min in_min in_max out_min out_max == out_min)%Q /\
      (val_map in_max in_min in_max out_min out_max == out_max)%Q /\
      (forall h : Q,
          val_map (x + h) in_min in_max out_min out_max
          - val_map x in_min in_max out_min out_max
          == h * slope in_min in_max out_min out_max)%Q) /\
  (val_map 0 (-90) 90 125 875 == 500)%Q /\
  (val_map 180 (-90) 90 125 875 == 1250)%Q.
Proof.
  split; [|split; reflexivity].
  intros x in_min in_max out_min out_max H.
  assert (Hd : ~ (in_max - in_min == 0)%Q).
  { intros E. apply H. symmetry. now apply Qminus_zero_eq. }
  split; [reflexivity|]. split; [now apply val_map_is_affine|].
  unfold val_map, slope. repeat split; try intros h; now field.
Qed.

Lemma val_map_spec_witness :
  (val_map 180 (-90) 90 125 875 - val_map 90 (-90) 90 125 875
   == 90 * slope (-90) 90 125 875)%Q.
Proof.
  pose proof (proj1 val_map_spec 90%Q (-90)%Q 90%Q 125%Q 875%Q) as H.
  destruct H as (_ & _ & _ & _ & H); [discriminate|].
  exact (H 90%Q).
Defined.

(** ** The deadband filter *)

Lemma smooth_servo_hold (self : TonyPiPoseMimic) (servo_id P P' : Z) :
  last_servos self !! servo_id = Some P ->
  Z.abs (P - P') < SMOOTHING_THRESHOLD ->
  smooth_servo servo_id P' self = (Ok P, self).
Proof.
  intros Hl Hd. unfold smooth_servo. rewrite Hl.
  apply Z.ltb_lt in Hd. now rewrite Hd.
Qed.

Lemma smooth_servo_move (self : TonyPiPoseMimic) (servo_id P P' : Z) :
  last_servos self !! servo_id = Some P ->
  SMOOTHING_THRESHOLD <= Z.abs (P - P') ->
  smooth_servo servo_id P' self
  = (Ok P', mkMimic (full_body self) (<[servo_id := P']> (last_servos self))).
Proof.
  intros Hl Hd. unfold smooth_servo. rewrite Hl.
  apply Z.ltb_ge in Hd. now rewrite Hd.
Qed.

Lemma smooth_servo_first (self : TonyPiPoseMimic) (servo_id P' : Z) :
  last_servos self !! servo_id = None ->
  smooth_servo servo_id P' self
  = (Ok P', mkMimic (full_body self) (<[servo_id := P']> (last_servos self))).
Proof. intros Hl. unfold smooth_servo. now rewrite Hl. Qed.

(** C4.  If a previous position [P] is stored for the actuator and the
    candidate [P'] satisfies [|P - P'| < 25], the filter returns [P] and
    leaves the state as it is; with no previous position the candidate
    is returned and stored.  With previous 500, candidate 510 gives 500;
    candidate 530 gives 530 and the stored value becomes 530. *)
Theorem smooth_servo_law :
  SMOOTHING_THRESHOLD = 25 /\
  (forall (self : TonyPiPoseMimic) (servo_id P P' : Z),
      last_servos self !! servo_id = Some P ->
      Z.abs (P - P') < SMOOTHING_THRESHOLD ->
      smooth_servo servo_id P' self = (Ok P, self)) /\
  (forall (self : TonyPiPoseMimic) (servo_id P' : Z),
      last_servos self !! servo_id = None ->
      fst (smooth_servo servo_id P' self) = Ok P' /\
      last_servos (snd (smooth_servo servo_id P' self)) !! servo_id = Some P') /\
  (forall (fb : bool) (servo_id : Z),
      let self := mkMimic fb {[ servo_id := 500 ]} in
      smooth_servo servo_id 510 self = (Ok 500, self) /\
      fst (smooth_servo servo_id 530 self) = Ok 530 /\
      last_servos (snd (smooth_servo servo_id 530 self)) !! servo_id = Some 530).
Proof.
  split; [reflexivity|]. split; [exact smooth_servo_hold|]. split.
  - intros self servo_id P' Hl. rewrite (smooth_servo_first _ _ _ Hl).
    cbn. split; [reflexivity|]. apply lookup_insert_eq.
  - intros fb servo_id self.
    assert (Hl : last_servos self !! servo_id = Some 500)
      by apply lookup_singleton_eq.
    split.
    + apply smooth_servo_hold; [exact Hl|]. reflexivity.
    + rewrite (smooth_servo_move self servo_id 500 530 Hl); [|discriminate].
      cbn. split; [reflexivity|]. apply lookup_insert_eq.
Qed.

Lemma smooth_servo_law_witness :
  smooth_servo 7 510 (mkMimic true {[ 7 := 500 ]})
  = (Ok 500, mkMimic true {[ 7 := 500 ]}).
Proof.
  apply (proj1 (proj2 smooth_servo_law)); [reflexivity | reflexivity].
Defined.

(** ** The methods in candidate form *)

Arguments servo_of : simpl never.
Arguments angle : simpl never.
Arguments pixel : simpl never.
Arguments smooth_servo : simpl never.

Lemma bind_Ok {A B} (m : M A) (k : A -> M B) self a self' :
  m self = (Ok a, self') -> bind m k self = k a self'.
Proof. intros H. unfold bind. now rewrite H. Qed.

Lemma bind_Raise {A B} (m : M A) (k : A -> M B) self e self' :
  m self = (Raise e, self') -> bind m k self = (Raise e, self').
Proof. intros H. unfold bind. now rewrite H. Qed.

Lemma bind_ret_l {A B} (a : A) (k : A -> M B) self :
  bind (ret a) k self = k a self.
Proof. reflexivity. Qed.

Lemma bind_assoc {A B C} (m : M A) (f : A -> M B) (g : B -> M C) self :
  bind (bind m f) g self = bind m (fun x => bind (f x) g) self.
Proof. unfold bind. destruct (m self) as [[a|e] s]; reflexivity. Qed.

Lemma smooth_servo_Ok (servo_id new_value : Z) (self : TonyPiPoseMimic) :
  exists p self', smooth_servo servo_id new_value self = (Ok p, self').
Proof.
  unfold smooth_servo. destruct (last_servos self !! servo_id) as [last|].
  - destruct (Z.abs (last - new_value) <? SMOOTHING_THRESHOLD); eauto.
  - eauto.
Qed.

Lemma get_point_Some landmarks idx width height lm self :
  landmarks !! idx = Some lm ->
  get_point landmarks idx width height self = (Ok (pixel lm width height), self).
Proof. intros H. unfold get_point, index, bind. now rewrite H. Qed.

Lemma get_point_None landmarks idx width height self :
  landmarks !! idx = None ->
  get_point landmarks idx width height self = (Raise IndexError, self).
Proof. intros H. unfold get_point, index, bind. now rewrite H. Qed.

Lemma index_Some landmarks idx lm self :
  landmarks !! idx = Some lm -> index landmarks idx self = (Ok lm, self).
Proof. intros H. unfold index. now rewrite H. Qed.

Lemma index_None landmarks idx self :
  landmarks !! idx = None -> index landmarks idx self = (Raise IndexError, self).
Proof. intros H. unfold index. now rewrite H. Qed.

(** Resolve the next landmark lookup of a method, on both sides. *)
Ltac step_lookup :=
  match goal with
  | |- context [?l !! ?i] =>
      let E := fresh "E" in
      destruct (l !! i) eqn:E;
      [ repeat first [ erewrite (bind_Ok (get_point l i _ _))
                         by (apply get_point_Some; exact E)
                     | erewrite (bind_Ok (index l i))
                         by (apply index_Some; exact E) ]
      | repeat first [ erewrite (bind_Raise (get_point l i _ _))
                         by (apply get_point_None; exact E)
                     | erewrite (bind_Raise (index l i))
                         by (apply index_None; exact E) ];
        try reflexivity ]
  end.

(** Run the next [smooth_servo] of a method, on both sides. *)
Ltac step_smooth :=
  match goal with
  | |- context [bind (smooth_servo ?i ?v) _ ?s] =>
      let p := fresh "p" in
      let s' := fresh "self" in
      let E := fresh "E" in
      destruct (smooth_servo_Ok i v s) as (p & s' & E);
      repeat erewrite (bind_Ok (smooth_servo i v)) by exact E
  end.

(** Use a lookup already resolved. *)
Ltac step_known :=
  match goal with
  | E : ?l !! ?i = Some ?lm |- context [bind (index ?l ?i) _ _] =>
      erewrite (bind_Ok (index l i)) by (apply index_Some; exact E)
  | E : ?l !! ?i = Some ?lm |- context [bind (get_point ?l ?i ?w ?h) _ _] =>
      erewrite (bind_Ok (get_point l i w h)) by (apply get_point_Some; exact E)
  end.

(** Normalise both sides of an equation between monadic runs. *)
Ltac run :=
  repeat (first [ rewrite bind_assoc | rewrite bind_ret_l
                | step_known | step_smooth ];
          cbn beta iota zeta);
  try reflexivity.

Ltac split_angles :=
  repeat match goal with
         | |- context [angle ?a ?b] => destruct (angle a b)
         end.

Lemma calculate_arm_servos_nf landmarks width height self :
  calculate_arm_servos landmarks width height self
  = match lookups landmarks [11; 12; 13; 14; 15; 16]%nat with
    | Some [l11; l12; l13; l14; l15; l16] =>
        smooth_all (arm_cands width height l11 l12 l13 l14 l15 l16) self
    | _ => (Raise IndexError, self)
    end.
Proof.
  unfold calculate_arm_servos. cbn [lookups].
  do 6 step_lookup.
  unfold arm_cands, left_shoulder_angle, left_elbow_angle,
    right_shoulder_angle, right_elbow_angle.
  cbn zeta. split_angles; try reflexivity.
  cbn [smooth_all app]. unfold emit, cand_id, cand_value, cand_name.
  cbn [fst snd]. run.
Qed.

Lemma calculate_shoulder_forward_servos_nf landmarks width height self :
  calculate_shoulder_forward_servos landmarks width height self
  = match lookups landmarks [11; 12; 15; 16]%nat with
    | Some [l11; l12; l15; l16] => smooth_all (fwd_cands l11 l12 l15 l16) self
    | _ => (Raise IndexError, self)
    end.
Proof.
  unfold calculate_shoulder_forward_servos. cbn [lookups].
  do 4 step_lookup.
  unfold fwd_cands. cbn [smooth_all app].
  unfold emit, cand_id, cand_value, cand_name. cbn [fst snd]. run.
Qed.

Lemma calculate_hip_servos_nf landmarks width height self :
  calculate_hip_servos landmarks width height self
  = match lookups landmarks [23; 24; 25; 26]%nat with
    | Some [l23; l24; l25; l26] =>
        smooth_all (hip_cands width height l23 l24 l25 l26) self
    | _ => (Raise IndexError, self)
    end.
Proof.
  unfold calculate_hip_servos. cbn [lookups].
  do 4 step_lookup.
  unfold hip_cands, hip_side_angle. cbn zeta.
  split_angles; cbn [opt_cand smooth_all app];
    unfold emit, cand_id, cand_value, cand_name; cbn [fst snd]; run.
Qed.

Lemma calculate_knee_servos_nf landmarks width height self :
  calculate_knee_servos landmarks width height self
  = match lookups landmarks [23; 24; 25; 26; 27; 28]%nat with
    | Some [l23; l24; l25; l26; l27; l28] =>
        smooth_all (knee_cands width height l23 l24 l25 l26 l27 l28) self
    | _ => (Raise IndexError, self)
    end.
Proof.
  unfold calculate_knee_servos. cbn [lookups].
  do 6 step_lookup.
  unfold knee_cands, knee_angle. cbn zeta.
  split_angles; cbn [opt_cand smooth_all app];
    unfold emit, cand_id, cand_value, cand_name; cbn [fst snd]; run.
Qed.

Lemma smooth_servo_eq (servo_id new_value : Z) (self : TonyPiPoseMimic) :
  smooth_servo servo_id new_value self
  = (Ok (fst (smooth (last_servos self) servo_id new_value)),
     mkMimic (full_body self) (snd (smooth (last_servos self) servo_id new_value))).
Proof.
  unfold smooth_servo, smooth. destruct self as [fb st]; cbn [last_servos full_body].
  destruct (st !! servo_id) as [last|]; [|reflexivity].
  destruct (Z.abs (last - new_value) <? SMOOTHING_THRESHOLD); reflexivity.
Qed.

Lemma smooth_all_eq (cs : list cand) (self : TonyPiPoseMimic) :
  smooth_all cs self
  = (Ok (fst (smooth_list cs (last_servos self))),
     mkMimic (full_body self) (snd (smooth_list cs (last_servos self)))).
Proof.
  revert self. induction cs as [|c cs IH]; intros self.
  - destruct self; reflexivity.
  - cbn [smooth_all smooth_list]. unfold emit.
    rewrite bind_assoc.
    erewrite bind_Ok by apply smooth_servo_eq.
    rewrite bind_ret_l.
    erewrite bind_Ok by apply IH.
    cbn [last_servos full_body].
    destruct (smooth (last_servos self) (cand_id c) (cand_value c)) as [p st1].
    cbn [fst snd].
    destruct (smooth_list cs st1) as [xs st2]. reflexivity.
Qed.

Lemma smooth_list_app (cs1 cs2 : list cand) (st : gmap Z Z) :
  smooth_list (cs1 ++ cs2) st
  = let (xs, st1) := smooth_list cs1 st in
    let (ys, st2) := smooth_list cs2 st1 in
    (xs ++ ys, st2).
Proof.
  revert st. induction cs1 as [|c cs1 IH]; intros st; cbn [app smooth_list].
  - destruct (smooth_list cs2 st); reflexivity.
  - destruct (smooth st (cand_id c) (cand_value c)) as [p st1].
    rewrite IH. destruct (smooth_list cs1 st1) as [xs st2].
    destruct (smooth_list cs2 st2) as [ys st3]. reflexivity.
Qed.

Lemma calculate_servo_commands_nf landmarks width height self :
  calculate_servo_commands landmarks width height self
  = frame_result self landmarks width height.
Proof.
  unfold calculate_servo_commands, frame_result, plan.
  unfold bind at 1. rewrite calculate_arm_servos_nf.
  cbn [lookups].
  destruct (landmarks !! 11%nat) as [l11|] eqn:E11;
    [|destruct self; reflexivity].
  destruct (landmarks !! 12%nat) as [l12|] eqn:E12;
    [|destruct self; reflexivity].
  destruct (landmarks !! 13%nat) as [l13|] eqn:E13;
    [|destruct self; reflexivity].
  destruct (landmarks !! 14%nat) as [l14|] eqn:E14;
    [|destruct self; reflexivity].
  destruct (landmarks !! 15%nat) as [l15|] eqn:E15;
    [|destruct self; reflexivity].
  destruct (landmarks !! 16%nat) as [l16|] eqn:E16;
    [|destruct self; reflexivity].
  rewrite smooth_all_eq. cbn zeta.
  unfold bind at 1. rewrite calculate_shoulder_forward_servos_nf.
  cbn [lookups]. rewrite E11, E12, E15, E16. rewrite smooth_all_eq.
  cbn [last_servos full_body].
  set (arm := arm_cands width height l11 l12 l13 l14 l15 l16).
  set (fwd := fwd_cands l11 l12 l15 l16).
  unfold bind at 1. cbn [full_body].
  destruct (full_body self) eqn:Efb.
  - unfold bind at 1. rewrite calculate_hip_servos_nf.
    cbn [lookups].
    destruct (landmarks !! 23%nat) as [l23|] eqn:E23;
      [|cbn [fst snd]; rewrite smooth_list_app;
        destruct (smooth_list arm _), (smooth_list fwd _); reflexivity].
    destruct (landmarks !! 24%nat) as [l24|] eqn:E24;
      [|cbn [fst snd]; rewrite smooth_list_app;
        destruct (smooth_list arm _), (smooth_list fwd _); reflexivity].
    destruct (landmarks !! 25%nat) as [l25|] eqn:E25;
      [|cbn [fst snd]; rewrite smooth_list_app;
        destruct (smooth_list arm _), (smooth_list fwd _); reflexivity].
    destruct (landmarks !! 26%nat) as [l26|] eqn:E26;
      [|cbn [fst snd]; rewrite smooth_list_app;
        destruct (smooth_list arm _), (smooth_list fwd _); reflexivity].
    rewrite smooth_all_eq. cbn [last_servos full_body].
    set (hip := hip_cands width height l23 l24 l25 l26).
    unfold bind at 1. rewrite calculate_knee_servos_nf.
    cbn [lookups]. rewrite E23, E24, E25, E26.
    destruct (landmarks !! 27%nat) as [l27|] eqn:E27;
      [|cbn [fst snd]; rewrite !smooth_list_app;
        destruct (smooth_list arm _), (smooth_list fwd _), (smooth_list hip _);
        reflexivity].
    destruct (landmarks !! 28%nat) as [l28|] eqn:E28;
      [|cbn [fst snd]; rewrite !smooth_list_app;
        destruct (smooth_list arm _), (smooth_list fwd _), (smooth_list hip _);
        reflexivity].
    rewrite smooth_all_eq. cbn [last_servos full_body fst snd].
    set (knee := knee_cands width height l23 l24 l25 l26 l27 l28).
    generalize (last_servos self); intros st.
    repeat first
      [ rewrite smooth_list_app
      | match goal with
        | |- context [smooth_list ?c ?g] =>
            is_var g; destruct (smooth_list c g); cbn [fst snd]
        end ].
    cbn. rewrite <- !app_assoc. reflexivity.
  - cbn [fst snd]. rewrite smooth_list_app.
    destruct (smooth_list arm _), (smooth_list fwd _). reflexivity.
Qed.

(** ** Safety bounds *)

Lemma smooth_in_range (st : gmap Z Z) (servo_id new_value : Z) :
  map_Forall (fun _ p => in_range p) st ->
  in_range new_value ->
  in_range (fst (smooth st servo_id new_value)) /\
  map_Forall (fun _ p => in_range p) (snd (smooth st servo_id new_value)).
Proof.
  intros Hst Hnew. unfold smooth.
  destruct (st !! servo_id) as [last|] eqn:E.
  - destruct (Z.abs (last - new_value) <? SMOOTHING_THRESHOLD); cbn [fst snd].
    + split; [|exact Hst]. exact (Hst _ _ E).
    + split; [exact Hnew|]. now apply map_Forall_insert_2.
  - cbn [fst snd]. split; [exact Hnew|]. now apply map_Forall_insert_2.
Qed.

Lemma smooth_list_in_range (cs : list cand) (st : gmap Z Z) :
  Forall (fun c => in_range (cand_value c)) cs ->
  map_Forall (fun _ p => in_range p) st ->
  commands_in_range (fst (smooth_list cs st)) /\
  map_Forall (fun _ p => in_range p) (snd (smooth_list cs st)).
Proof.
  revert st. induction cs as [|c cs IH]; intros st Hcs Hst; cbn [smooth_list].
  - split; [constructor|exact Hst].
  - inversion Hcs as [|? ? Hc Hcs']; subst.
    destruct (smooth_in_range st (cand_id c) (cand_value c) Hst Hc) as [H1 H2].
    destruct (smooth st (cand_id c) (cand_value c)) as [p st1].
    destruct (IH st1 Hcs' H2) as [H3 H4].
    destruct (smooth_list cs st1) as [xs st2]. cbn [fst snd] in *.
    split; [|exact H4]. constructor; [exact H1|exact H3].
Qed.

Lemma opt_cand_values (a : option Z) (f : Z -> cand) (P : cand -> Prop) :
  (forall v, P (f v)) -> Forall P (opt_cand a f).
Proof. intros H. destruct a; cbn; auto. Qed.

Lemma plan_in_range fb landmarks width height :
  Forall (fun c => in_range (cand_value c)) (fst (plan fb landmarks width height)).
Proof.
  assert (Harm : forall l11 l12 l13 l14 l15 l16,
             Forall (fun c => in_range (cand_value c))
               (arm_cands width height l11 l12 l13 l14 l15 l16)).
  { intros. unfold arm_cands.
    repeat match goal with
           | |- context [match ?a with Some _ => _ | None => _ end] => destruct a
           end; repeat constructor; apply servo_of_bounds. }
  assert (Hfwd : forall l11 l12 l15 l16,
             Forall (fun c => in_range (cand_value c)) (fwd_cands l11 l12 l15 l16)).
  { intros. repeat constructor; apply servo_of_bounds. }
  assert (Hhip : forall l23 l24 l25 l26,
             Forall (fun c => in_range (cand_value c))
               (hip_cands width height l23 l24 l25 l26)).
  { intros. unfold hip_cands. rewrite !Forall_app.
    repeat split; try (apply opt_cand_values; intros; apply servo_of_bounds).
    repeat constructor; apply servo_of_bounds. }
  assert (Hknee : forall l23 l24 l25 l26 l27 l28,
             Forall (fun c => in_range (cand_value c))
               (knee_cands width height l23 l24 l25 l26 l27 l28)).
  { intros. unfold knee_cands. rewrite !Forall_app.
    split; apply opt_cand_values; intros; apply servo_of_bounds. }
  unfold plan. cbn [lookups].
  repeat match goal with
         | |- context [landmarks !! ?i] => destruct (landmarks !! i)
         | |- context [if ?b then _ else _] => destruct b
         end; cbn [fst]; rewrite ?Forall_app; auto.
Qed.

Lemma frame_result_in_range self landmarks width height :
  state_in_range self ->
  state_in_range (snd (frame_result self landmarks width height)) /\
  forall commands,
    fst (frame_result self landmarks width height) = Ok (Some commands) ->
    commands_in_range commands.
Proof.
  intros Hst. unfold frame_result, state_in_range. cbn [fst snd last_servos].
  destruct (smooth_list_in_range _ _ (plan_in_range (full_body self) landmarks
                                        width height) Hst) as [H1 H2].
  split; [exact H2|].
  intros commands. destruct (snd (plan _ _ _ _)); [discriminate|].
  intros [= E]. unfold nonempty in E.
  destruct (fst (smooth_list _ _)); [discriminate|]. now injection E as <-.
Qed.

Lemma calculate_servo_commands_in_range self landmarks width height :
  state_in_range self ->
  state_in_range (snd (calculate_servo_commands landmarks width height self)) /\
  forall commands,
    fst (calculate_servo_commands landmarks width height self)
    = Ok (Some commands) ->
    commands_in_range commands.
Proof.
  rewrite calculate_servo_commands_nf. apply frame_result_in_range.
Qed.

Lemma detect_commands_in_range poses width height acc self :
  state_in_range self ->
  opt_in_range acc ->
  state_in_range (snd (detect_commands poses width height acc self)) /\
  forall oc,
    fst (detect_commands poses width height acc self) = Ok oc ->
    opt_in_range oc.
Proof.
  revert acc self. induction poses as [|landmarks rest IH];
    intros acc self Hst Hacc; cbn [detect_commands].
  - split; [exact Hst|]. now intros oc [= <-].
  - destruct (calculate_servo_commands_in_range self landmarks width height Hst)
      as [H1 H2].
    unfold bind.
    destruct (calculate_servo_commands landmarks width height self)
      as [[c|e] self'] eqn:E; cbn [fst snd] in *.
    + apply IH; [exact H1|]. destruct c; cbn; auto.
    + split; [exact H1|discriminate].
Qed.

Lemma run_iteration_in_range f self :
  state_in_range self ->
  state_in_range (snd (run_iteration f self)) /\
  forall oc, fst (run_iteration f self) = Ok oc -> opt_in_range oc.
Proof.
  intros Hst. unfold run_iteration.
  destruct (detect_commands_in_range (pose_landmarks f) (frame_width f)
              (frame_height f) None self Hst I) as [H1 H2].
  unfold bind.
  destruct (detect_commands _ _ _ _ self) as [[c|e] self'];
    cbn [fst snd] in *; [|split; [exact H1|discriminate]].
  destruct (key_f f); cbn; (split; [exact H1|]); intros oc [= <-]; now apply H2.
Qed.

Lemma run_in_range frames self :
  state_in_range self ->
  Forall commands_in_range (fst (run frames self)) /\
  state_in_range (snd (run frames self)).
Proof.
  revert self. induction frames as [|f rest IH]; intros self Hst; cbn [run].
  - split; [constructor|exact Hst].
  - destruct (run_iteration_in_range f self Hst) as [H1 H2].
    destruct (run_iteration f self) as [[[commands|]|e] self'];
      cbn [fst snd] in *.
    + destruct (IH self' H1) as [H3 H4].
      destruct (run rest self') as [out final]; cbn [fst snd] in *.
      split; [|exact H4]. constructor; [|exact H3].
      exact (H2 _ eq_refl).
    + now apply IH.
    + split; [constructor|exact H1].
Qed.

(** C1.  Starting from a fresh engine, in either mode and over any
    sequence of frames (with any mode switches in between), every
    command set the loop obtains has all positions within
    [SERVO_MIN, SERVO_MAX] = [125, 875], every value stored in the
    smoothing memory is within these bounds, and the same holds for the
    commands and the memory of any further call of
    [calculate_servo_commands]. *)
Theorem servo_bounds_invariant :
  SERVO_MIN = 125 /\ SERVO_MAX = 875 /\
  forall (fb : bool) (frames : list frame),
    let final := snd (run frames (init fb)) in
    Forall commands_in_range (fst (run frames (init fb))) /\
    state_in_range final /\
    forall landmarks width height,
      let r := calculate_servo_commands landmarks width height final in
      result_in_range (fst r) /\ state_in_range (snd r).
Proof.
  split; [reflexivity|]. split; [reflexivity|].
  intros fb frames final.
  assert (H0 : state_in_range (init fb)).
  { unfold state_in_range, init; cbn. apply map_Forall_empty. }
  destruct (run_in_range frames (init fb) H0) as [H1 H2].
  fold final in H2.
  split; [exact H1|]. split; [exact H2|].
  intros landmarks width height r.
  destruct (calculate_servo_commands_in_range final landmarks width height H2)
    as [H3 H4].
  split; [|exact H3].
  unfold result_in_range, opt_in_range.
  destruct (fst r) as [[commands|]|e] eqn:E; auto.
Qed.

(** ** The angle on pixel vectors *)

Lemma is_zero_true (v : Z * Z) : is_zero v = true <-> v = (0, 0).
Proof.
  destruct v as [a b]. unfold is_zero; cbn [fst snd].
  rewrite andb_true_iff, !Z.eqb_eq. split.
  - now intros [-> ->].
  - now intros [= -> ->].
Qed.

Lemma to_vec_norm_zero (v : Z * Z) :
  Angle.norm (to_vec v) = 0%R <-> is_zero v = true.
Proof.
  rewrite AngleFacts.norm_zero_iff, is_zero_true.
  destruct v as [a b]. unfold to_vec; cbn [fst snd]. split.
  - intros [= Ha Hb]. apply eq_IZR in Ha, Hb. now subst.
  - now intros [= -> ->].
Qed.

Lemma angle_None (v1 v2 : Z * Z) :
  angle v1 v2 = None <-> degenerate v1 v2 = true.
Proof.
  unfold angle, degenerate.
  rewrite AngleSpec.vector_2d_angle_None, orb_true_iff, !to_vec_norm_zero.
  reflexivity.
Qed.

Lemma angle_defined (v1 v2 : Z * Z) :
  degenerate v1 v2 = false -> exists a, angle v1 v2 = Some a.
Proof.
  intros H. destruct (angle v1 v2) as [a|] eqn:E; [eauto|].
  apply angle_None in E. congruence.
Qed.

Lemma to_vec_cross (v1 v2 : Z * Z) :
  Angle.cross (to_vec v1) (to_vec v2) = IZR (zcross v1 v2).
Proof.
  unfold Angle.cross, zcross, to_vec; cbn [fst snd].
  now rewrite minus_IZR, !mult_IZR.
Qed.

Lemma to_vec_dot (v1 v2 : Z * Z) :
  Angle.dot (to_vec v1) (to_vec v2) = IZR (zdot v1 v2).
Proof.
  unfold Angle.dot, zdot, to_vec; cbn [fst snd].
  now rewrite plus_IZR, !mult_IZR.
Qed.

Lemma arctan2_quarter (c d a : Z) :
  quarter_angle c d = Some a ->
  Angle.degrees (Angle.arctan2 (IZR c) (IZR d)) = IZR a.
Proof.
  pose proof PI_RGT_0 as Hpi.
  unfold quarter_angle, Angle.arctan2, Angle.degrees.
  destruct (Z.eqb_spec c 0) as [->|Hc].
  - destruct (Z.ltb_spec 0 d) as [Hd|Hd].
    + intros [= <-]. apply IZR_lt in Hd.
      destruct (Rlt_dec 0 (IZR d)); [|contradiction].
      replace (0 / IZR d)%R with 0%R by (field; lra).
      rewrite atan_0. field. lra.
    + destruct (Z.ltb_spec d 0) as [Hd'|Hd']; [|discriminate].
      intros [= <-]. apply IZR_lt in Hd'.
      destruct (Rlt_dec 0 (IZR d)); [lra|].
      destruct (Rlt_dec (IZR d) 0); [|contradiction].
      destruct (Rle_dec 0 0); [|lra].
      replace (0 / IZR d)%R with 0%R by (field; lra).
      rewrite atan_0. field. lra.
  - destruct (Z.eqb_spec d 0) as [->|Hd]; [|discriminate].
    destruct (Rlt_dec 0 0); [lra|].
    destruct (Z.ltb_spec 0 c) as [Hc'|Hc']; intros [= <-].
    + apply IZR_lt in Hc'.
      destruct (Rlt_dec 0 (IZR c)); [|contradiction]. field. lra.
    + assert (Hc'' : c < 0) by lia. apply IZR_lt in Hc''.
      destruct (Rlt_dec 0 (IZR c)); [lra|].
      destruct (Rlt_dec (IZR c) 0); [|contradiction]. field. lra.
Qed.

(** Evaluation of [angle] on quarter turns. *)
Lemma angle_quarter (v1 v2 : Z * Z) (a : Z) :
  quarter_angle (zcross v1 v2) (zdot v1 v2) = Some a ->
  angle v1 v2 = Some a.
Proof.
  intros Hq. unfold angle.
  rewrite AngleSpec.vector_2d_angle_Some.
  - rewrite to_vec_cross, to_vec_dot, (arctan2_quarter _ _ _ Hq).
    now rewrite AngleFacts.trunc_IZR.
  - intros Hd.
    pose proof (AngleFacts.lagrange (to_vec v1) (to_vec v2)) as L.
    rewrite Hd, to_vec_cross, to_vec_dot in L.
    assert (Hc : IZR (zcross v1 v2) = 0%R) by nra.
    assert (Hz : IZR (zdot v1 v2) = 0%R) by nra.
    apply eq_IZR in Hc, Hz. rewrite Hc, Hz in Hq. discriminate.
Qed.

(** ** Evaluation of concrete frames *)

Ltac eval_lookups :=
  repeat match goal with
         | |- context [lookups ?l ?i] =>
             let r := eval vm_compute in (lookups l i) in
             change (lookups l i) with r; cbn beta iota zeta
         end.

Ltac eval_angles :=
  repeat match goal with
         | |- context [angle ?a ?b] =>
             first [ erewrite (angle_quarter a b) by (vm_compute; reflexivity)
                   | rewrite (proj2 (angle_None a b)) by (vm_compute; reflexivity) ]
         end.

Ltac eval_frame :=
  rewrite calculate_servo_commands_nf;
  unfold frame_result, plan; cbn [full_body last_servos init];
  eval_lookups;
  unfold arm_cands, hip_cands, knee_cands, left_shoulder_angle,
    left_elbow_angle, right_shoulder_angle, right_elbow_angle,
    hip_side_angle, knee_angle;
  cbn zeta; eval_angles.

Lemma t_pose_full_body :
  fst (calculate_servo_commands t_pose 640 480 (init true))
  = Ok (Some [ mkServoCommand 15 500 "R_shoulder_side";
               mkServoCommand 14 500 "R_elbow";
               mkServoCommand 7 500 "L_shoulder_side";
               mkServoCommand 6 500 "L_elbow";
               mkServoCommand 16 312 "R_shoulder_fwd";
               mkServoCommand 8 700 "L_shoulder_fwd";
               mkServoCommand 4 600 "R_hip_side";
               mkServoCommand 12 400 "L_hip_side";
               mkServoCommand 3 500 "R_hip_front";
               mkServoCommand 11 500 "L_hip_front";
               mkServoCommand 2 390 "R_knee";
               mkServoCommand 10 610 "L_knee" ]).
Proof. eval_frame. vm_compute. reflexivity. Qed.

(** ** Missing landmarks *)

Lemma lookups_spec (landmarks : list Landmark) (idxs : list nat) :
  match lookups landmarks idxs with
  | Some _ => Forall (fun i => is_Some (landmarks !! i)) idxs
  | None => Exists (fun i => landmarks !! i = None) idxs
  end.
Proof.
  induction idxs as [|i idxs IH]; cbn [lookups]; [constructor|].
  destruct (landmarks !! i) as [lm|] eqn:E.
  - destruct (lookups landmarks idxs).
    + constructor; [now rewrite E|exact IH].
    + now apply Exists_cons_tl.
  - now apply Exists_cons_hd.
Qed.

Ltac split_lookups landmarks :=
  repeat match goal with
         | |- context [landmarks !! ?i] => destruct (landmarks !! i); cbn
         end.

Lemma plan_snd fb landmarks width height :
  snd (plan fb landmarks width height)
  = match lookups landmarks (required fb) with
    | Some _ => None
    | None => Some IndexError
    end.
Proof.
  unfold plan, required. destruct fb; cbn [lookups app];
    split_lookups landmarks; reflexivity.
Qed.

Lemma plan_fst_nonempty fb landmarks width height :
  snd (plan fb landmarks width height) = None ->
  fst (plan fb landmarks width height) <> [].
Proof.
  unfold plan, fwd_cands. cbn [lookups].
  destruct fb; split_lookups landmarks; try discriminate;
    intros _ E; apply (f_equal length) in E;
    rewrite !length_app in E; cbn in E; lia.
Qed.

Lemma smooth_list_ids (cs : list cand) (st : gmap Z Z) :
  map servo_id (fst (smooth_list cs st)) = map cand_id cs.
Proof.
  revert st. induction cs as [|c cs IH]; intros st; cbn [smooth_list]; [easy|].
  destruct (smooth st (cand_id c) (cand_value c)) as [p st1].
  specialize (IH st1). destruct (smooth_list cs st1) as [xs st2].
  cbn [fst map servo_id] in *. now rewrite IH.
Qed.

Lemma smooth_list_nonempty (cs : list cand) (st : gmap Z Z) :
  cs <> [] -> fst (smooth_list cs st) <> [].
Proof.
  intros H E. apply H. pose proof (smooth_list_ids cs st) as Hi.
  rewrite E in Hi. destruct cs; [reflexivity|discriminate].
Qed.

(** C2, as the code has it.  [calculate_servo_commands] raises
    [IndexError] exactly when one of the landmark indices its mode reads
    (11-16, and 23-28 in full-body mode) is absent from the landmark
    list, and then returns no command set at all; when every such index
    is present it returns a non-empty command set. *)
Theorem missing_landmark_raises :
  forall (self : TonyPiPoseMimic) (landmarks : list Landmark) (width height : Z),
    match fst (calculate_servo_commands landmarks width height self) with
    | Raise e =>
        e = IndexError /\
        Exists (fun i => landmarks !! i = None) (required (full_body self))
    | Ok oc =>
        Forall (fun i => is_Some (landmarks !! i)) (required (full_body self)) /\
        exists commands, oc = Some commands /\ commands <> []
    end.
Proof.
  intros self landmarks width height.
  rewrite calculate_servo_commands_nf. unfold frame_result. cbn [fst].
  pose proof (plan_snd (full_body self) landmarks width height) as Hs.
  pose proof (plan_fst_nonempty (full_body self) landmarks width height) as Hn.
  pose proof (lookups_spec landmarks (required (full_body self))) as Hl.
  destruct (lookups landmarks (required (full_body self))).
  - rewrite Hs in *. split; [exact Hl|].
    specialize (Hn eq_refl).
    pose proof (smooth_list_nonempty _ (last_servos self) Hn) as Hne.
    unfold nonempty.
    destruct (fst (smooth_list _ _)) as [|c l0]; [contradiction|].
    exists (c :: l0). split; [reflexivity|discriminate].
  - rewrite Hs. split; [reflexivity|exact Hl].
Qed.

(** C2 fails as stated: with landmark 16 absent the call raises. *)
Lemma missing_landmark_counterexample :
  short_frame !! 16%nat = None /\
  In 16%nat (required false) /\
  fst (calculate_servo_commands short_frame 640 480 (init false))
  = Raise IndexError.
Proof.
  split; [reflexivity|]. split; [cbn; tauto|]. reflexivity.
Qed.

(** ** Which actuators a frame commands *)

Lemma arm_cands_ids width height l11 l12 l13 l14 l15 l16 :
  map cand_id (arm_cands width height l11 l12 l13 l14 l15 l16)
  = if arms_defined width height l11 l12 l13 l14 l15 l16
    then [15; 14; 7; 6] else [].
Proof.
  unfold arm_cands, arms_defined.
  destruct (left_shoulder_angle _ _ _ _), (left_elbow_angle _ _ _ _ _),
    (right_shoulder_angle _ _ _ _), (right_elbow_angle _ _ _ _ _); reflexivity.
Qed.

Lemma hip_cands_ids width height l23 l24 l25 l26 :
  map cand_id (hip_cands width height l23 l24 l25 l26)
  = (if defined (hip_side_angle width height l23 l25) then [4] else [])
    ++ (if defined (hip_side_angle width height l24 l26) then [12] else [])
    ++ [3; 11].
Proof.
  unfold hip_cands.
  destruct (hip_side_angle _ _ l23 _), (hip_side_angle _ _ l24 _); reflexivity.
Qed.

Lemma knee_cands_ids width height l23 l24 l25 l26 l27 l28 :
  map cand_id (knee_cands width height l23 l24 l25 l26 l27 l28)
  = (if defined (knee_angle width height l23 l25 l27) then [2] else [])
    ++ (if defined (knee_angle width height l24 l26 l28) then [10] else []).
Proof.
  unfold knee_cands.
  destruct (knee_angle _ _ l23 _ _), (knee_angle _ _ l24 _ _); reflexivity.
Qed.

Ltac solve_sublist :=
  repeat first [ apply sublist_nil | apply sublist_skip | apply sublist_cons ].

Lemma plan_ids_sublist fb landmarks width height :
  map cand_id (fst (plan fb landmarks width height)) `sublist_of` emission_order fb.
Proof.
  unfold plan. cbn [lookups].
  destruct fb; split_lookups landmarks;
    rewrite ?map_app, ?arm_cands_ids, ?hip_cands_ids, ?knee_cands_ids;
    repeat match goal with
           | |- context [if ?b then _ else _] => destruct b
           end; cbn; solve [solve_sublist].
Qed.

Lemma emission_order_NoDup fb : NoDup (emission_order fb).
Proof. destruct fb; compute_done. Qed.

Lemma emission_order_tracked fb (servo : Z) :
  In servo (emission_order fb) -> In servo (tracked fb).
Proof. destruct fb; cbn; intuition. Qed.

Lemma plan_ids_NoDup fb landmarks width height :
  NoDup (map cand_id (fst (plan fb landmarks width height))).
Proof.
  eapply sublist_NoDup; [apply emission_order_NoDup|apply plan_ids_sublist].
Qed.

Lemma frame_result_ids self landmarks width height commands :
  fst (frame_result self landmarks width height) = Ok (Some commands) ->
  map servo_id commands
  = map cand_id (fst (plan (full_body self) landmarks width height)).
Proof.
  unfold frame_result. cbn [fst].
  destruct (snd (plan _ _ _ _)); [discriminate|].
  intros [= E]. rewrite <- smooth_list_ids with (st := last_servos self).
  unfold nonempty in E. destruct (fst (smooth_list _ _)); [discriminate|].
  now injection E as <-.
Qed.

(** C5, as the code has it.  The actuator ids of a frame's output are
    distinct and all lie in the tracked set of the current mode; the
    arms-only set has the 6 arm actuators and the full-body set adds the
    4 hip and 2 knee actuators, 12 in all. *)
Theorem tracked_actuators :
  tracked false = [6; 7; 8; 14; 15; 16] /\
  tracked true = [6; 7; 8; 14; 15; 16; 3; 4; 11; 12; 2; 10] /\
  forall (self : TonyPiPoseMimic) (landmarks : list Landmark) (width height : Z),
    match fst (calculate_servo_commands landmarks width height self) with
    | Ok (Some commands) =>
        Forall (fun c => In (servo_id c) (tracked (full_body self))) commands /\
        NoDup (map servo_id commands) /\
        (length commands <= length (tracked (full_body self)))%nat
    | _ => True
    end.
Proof.
  split; [reflexivity|]. split; [reflexivity|].
  intros self landmarks width height.
  rewrite calculate_servo_commands_nf.
  destruct (fst (frame_result self landmarks width height))
    as [[commands|]|e] eqn:E; trivial.
  apply frame_result_ids in E.
  pose proof (plan_ids_sublist (full_body self) landmarks width height) as Hs.
  rewrite <- E in Hs.
  split; [|split].
  - apply List.Forall_forall. intros c Hc.
    apply emission_order_tracked.
    apply list_elem_of_In. eapply elem_of_sublist; [|exact Hs].
    apply list_elem_of_In. now apply in_map.
  - eapply sublist_NoDup; [apply emission_order_NoDup|exact Hs].
  - apply sublist_length in Hs. rewrite length_map in Hs.
    etransitivity; [exact Hs|]. destruct (full_body self); cbn; lia.
Qed.

(** C5 fails as stated: a full-body frame can command 12 distinct
    actuators, more than 10. *)
Lemma tracked_actuators_counterexample :
  exists commands,
    fst (calculate_servo_commands t_pose 640 480 (init true)) = Ok (Some commands) /\
    NoDup (map servo_id commands) /\
    length commands = 12%nat /\ (10 < length commands)%nat.
Proof.
  eexists. split; [apply t_pose_full_body|].
  split; [compute_done|].
  split; [reflexivity|cbn; lia].
Qed.

(** ** Depth-difference joints *)

Lemma plan_depth_ids fb landmarks width height :
  snd (plan fb landmarks width height) = None ->
  let ids := map cand_id (fst (plan fb landmarks width height)) in
  In 16 ids /\ In 8 ids /\ (if fb then In 3 ids /\ In 11 ids else True).
Proof.
  unfold plan, fwd_cands, hip_cands. cbn [lookups].
  destruct fb; split_lookups landmarks; try discriminate; intros _;
    rewrite ?map_app, ?in_app_iff; cbn; tauto.
Qed.

Lemma all_present_lookups (landmarks : list Landmark) (idxs : list nat) :
  Forall (fun i => (i < length landmarks)%nat) idxs ->
  exists lms, lookups landmarks idxs = Some lms.
Proof.
  intros H. pose proof (lookups_spec landmarks idxs) as Hs.
  destruct (lookups landmarks idxs) as [lms|]; [eauto|].
  exfalso. apply List.Exists_exists in Hs as (i & Hi & Hn).
  rewrite List.Forall_forall in H. specialize (H i Hi).
  apply lookup_ge_None in Hn. lia.
Qed.

(** C10.  For a frame in which all 33 landmark indices are present, the
    call returns a command set that contains the shoulder-forward
    commands (actuators 16 and 8) and, in full-body mode, the hip-front
    commands (actuators 3 and 11): the depth-difference joints have no
    omission path. *)
Theorem depth_commands_present :
  forall (self : TonyPiPoseMimic) (landmarks : list Landmark) (width height : Z),
    (33 <= length landmarks)%nat ->
    exists commands,
      fst (calculate_servo_commands landmarks width height self)
      = Ok (Some commands) /\
      In 16 (map servo_id commands) /\
      In 8 (map servo_id commands) /\
      (if full_body self
       then In 3 (map servo_id commands) /\ In 11 (map servo_id commands)
       else True).
Proof.
  intros self landmarks width height Hlen.
  assert (Hp : snd (plan (full_body self) landmarks width height) = None).
  { rewrite plan_snd.
    destruct (all_present_lookups landmarks (required (full_body self)))
      as [lms ->]; [|reflexivity].
    unfold required. destruct (full_body self); cbn [app];
      repeat constructor; lia. }
  destruct (fst (calculate_servo_commands landmarks width height self))
    as [[commands|]|e] eqn:E.
  - exists commands. split; [reflexivity|].
    rewrite calculate_servo_commands_nf in E.
    rewrite (frame_result_ids _ _ _ _ _ E).
    exact (plan_depth_ids _ _ _ _ Hp).
  - rewrite calculate_servo_commands_nf in E. unfold frame_result in E.
    cbn [fst] in E. rewrite Hp in E. injection E as E.
    pose proof (plan_fst_nonempty _ _ _ _ Hp) as Hn.
    apply (smooth_list_nonempty _ (last_servos self)) in Hn.
    unfold nonempty in E. destruct (fst (smooth_list _ _)); [easy|discriminate].
  - rewrite calculate_servo_commands_nf in E. unfold frame_result in E.
    cbn [fst] in E. rewrite Hp in E. discriminate.
Qed.

Lemma depth_commands_present_witness :
  exists commands,
    fst (calculate_servo_commands t_pose 640 480 (init true)) = Ok (Some commands) /\
    In 16 (map servo_id commands) /\
    In 8 (map servo_id commands) /\
    In 3 (map servo_id commands) /\ In 11 (map servo_id commands).
Proof.
  apply (depth_commands_present (init true) t_pose 640 480).
  vm_compute. lia.
Defined.

(** ** Idempotence *)

Lemma smooth_other (st : gmap Z Z) (servo_id new_value other : Z) :
  other <> servo_id ->
  snd (smooth st servo_id new_value) !! other = st !! other.
Proof.
  intros Hne. unfold smooth.
  destruct (st !! servo_id) as [last|];
    [destruct (Z.abs (last - new_value) <? SMOOTHING_THRESHOLD)|];
    cbn [snd]; trivial; now apply lookup_insert_ne.
Qed.

Lemma smooth_list_other (cs : list cand) (st : gmap Z Z) (other : Z) :
  ~ In other (map cand_id cs) ->
  snd (smooth_list cs st) !! other = st !! other.
Proof.
  revert st. induction cs as [|c cs IH]; intros st Hn; cbn [smooth_list]; [easy|].
  cbn [map] in Hn.
  pose proof (smooth_other st (cand_id c) (cand_value c) other) as H1.
  destruct (smooth st (cand_id c) (cand_value c)) as [p st1].
  specialize (IH st1). destruct (smooth_list cs st1) as [xs st2].
  cbn [snd] in *. rewrite IH, H1; [reflexivity| |]; intros E; apply Hn.
  - now left.
  - now right.
Qed.

(** Once an actuator has been smoothed, the same candidate is held. *)
Lemma smooth_again (st st' : gmap Z Z) (servo_id new_value : Z) :
  st' !! servo_id = snd (smooth st servo_id new_value) !! servo_id ->
  smooth st' servo_id new_value = (fst (smooth st servo_id new_value), st').
Proof.
  unfold smooth at 1 2 3.
  destruct (st !! servo_id) as [last|] eqn:E.
  - destruct (Z.abs (last - new_value) <? SMOOTHING_THRESHOLD) eqn:Ed;
      cbn [fst snd].
    + rewrite E. intros H. unfold smooth. now rewrite H, Ed.
    + rewrite lookup_insert_eq. intros H. unfold smooth. rewrite H.
      replace (new_value - new_value) with 0 by lia. reflexivity.
  - cbn [fst snd]. rewrite lookup_insert_eq. intros H.
    unfold smooth. rewrite H.
    replace (new_value - new_value) with 0 by lia. reflexivity.
Qed.

Lemma smooth_list_again (cs : list cand) (st st' : gmap Z Z) :
  NoDup (map cand_id cs) ->
  (forall servo, In servo (map cand_id cs) ->
                 st' !! servo = snd (smooth_list cs st) !! servo) ->
  smooth_list cs st' = (fst (smooth_list cs st), st').
Proof.
  revert st st'. induction cs as [|c cs IH]; intros st st' Hnd Hag;
    cbn [smooth_list]; [reflexivity|].
  cbn [map] in Hnd, Hag. apply NoDup_cons in Hnd as [Hni Hnd].
  rewrite list_elem_of_In in Hni.
  assert (H1 : st' !! cand_id c
               = snd (smooth st (cand_id c) (cand_value c)) !! cand_id c).
  { rewrite (Hag (cand_id c)) by now left. cbn [smooth_list].
    destruct (smooth st (cand_id c) (cand_value c)) as [p st1] eqn:E1.
    pose proof (smooth_list_other cs st1 (cand_id c) Hni) as H2.
    destruct (smooth_list cs st1) as [xs st2]. exact H2. }
  rewrite (smooth_again st st' _ _ H1).
  assert (H2 : smooth_list cs st'
               = (fst (smooth_list cs (snd (smooth st (cand_id c) (cand_value c)))),
                  st')).
  { apply IH; [exact Hnd|]. intros servo Hs.
    rewrite (Hag servo) by now right. cbn [smooth_list].
    destruct (smooth st (cand_id c) (cand_value c)) as [p st1]. cbn [snd].
    destruct (smooth_list cs st1) as [xs st2]. reflexivity. }
  rewrite H2.
  destruct (smooth st (cand_id c) (cand_value c)) as [p st1]. cbn [fst snd].
  destruct (smooth_list cs st1) as [xs st2]. reflexivity.
Qed.

(** C7.  From any prior state, processing a frame and then processing
    the identical frame again returns the identical result (the same
    commands in the same order with the same positions, or the same
    exception) and leaves the state as the first run left it. *)
Theorem identical_frame_idempotent :
  forall (self : TonyPiPoseMimic) (landmarks : list Landmark) (width height : Z),
    let first := calculate_servo_commands landmarks width height self in
    let second := calculate_servo_commands landmarks width height (snd first) in
    fst second = fst first /\ snd second = snd first.
Proof.
  intros self landmarks width height. cbn zeta.
  rewrite !calculate_servo_commands_nf. unfold frame_result.
  cbn [fst snd full_body last_servos].
  set (p := plan (full_body self) landmarks width height).
  rewrite (smooth_list_again (fst p) (last_servos self)); cbn [fst snd].
  - split; reflexivity.
  - apply plan_ids_NoDup.
  - reflexivity.
Qed.

(** ** Degenerate geometry *)

Lemma frame_result_Ok self landmarks width height oc :
  fst (frame_result self landmarks width height) = Ok oc ->
  snd (plan (full_body self) landmarks width height) = None /\
  map servo_id (commands_of (Ok oc))
  = map cand_id (fst (plan (full_body self) landmarks width height)).
Proof.
  unfold frame_result. cbn [fst].
  destruct (snd (plan _ _ _ _)); [discriminate|].
  intros [= <-]. split; [reflexivity|].
  rewrite <- smooth_list_ids with (st := last_servos self).
  unfold nonempty, commands_of. now destruct (fst (smooth_list _ _)).
Qed.

Lemma In_guarded (x k : Z) (b : bool) :
  In x (if b then [k] else []) <-> x = k /\ b = true.
Proof. destruct b; cbn; intuition congruence. Qed.

Lemma joint_emitted_ids fb landmarks width height :
  snd (plan fb landmarks width height) = None ->
  let ids := map cand_id (fst (plan fb landmarks width height)) in
  Forall (fun j => In (joint_servo j) ids
                   <-> joint_emitted width height landmarks j = true)
    (arm_joints ++ if fb then leg_joints else []).
Proof.
  unfold plan, joint_emitted, arm_group_defined, joint_angle. cbn [lookups].
  destruct fb; split_lookups landmarks; try discriminate; intros _;
    rewrite ?map_app, ?arm_cands_ids, ?hip_cands_ids, ?knee_cands_ids;
    unfold arms_defined, fwd_cands;
    match goal with
    | |- context [if ?a then [15; 14; 7; 6] else []] =>
        generalize a; intros arms
    end;
    repeat (apply Forall_cons; split); try apply Forall_nil;
    cbn [joint_servo]; rewrite ?in_app_iff, ?In_guarded;
    destruct arms; cbn; intuition (discriminate || lia).
Qed.

(** C3, as the code has it.  In a frame that yields commands, a planar
    joint has a command exactly when its own angle is defined and the
    code's guard for it holds: for a leg joint (hip-side, knee) the
    guard is its own angle, for the four arm joints it is that all four
    arm angles are defined.  So a joint whose angle is undefined never
    has a command (nothing is substituted for it), and the four arm
    commands are omitted together. *)
Theorem degenerate_joint_omitted :
  forall (self : TonyPiPoseMimic) (landmarks : list Landmark) (width height : Z),
    match fst (calculate_servo_commands landmarks width height self) with
    | Ok (Some commands) =>
        let ids := map servo_id commands in
        Forall (fun j =>
                  In (joint_servo j) ids
                  <-> defined (joint_angle width height landmarks j) = true /\
                      joint_emitted width height landmarks j = true)
          (arm_joints ++ if full_body self then leg_joints else [])
    | _ => True
    end.
Proof.
  intros self landmarks width height.
  rewrite calculate_servo_commands_nf.
  destruct (fst (frame_result self landmarks width height))
    as [[commands|]|e] eqn:E; trivial.
  apply frame_result_Ok in E as [Hp Hi]. cbn [commands_of] in Hi.
  cbn zeta. rewrite Hi.
  pose proof (joint_emitted_ids _ _ width height Hp) as H. cbn zeta in H.
  eapply Forall_impl; [exact H|]. cbn beta.
  intros j Hj. rewrite Hj. split; [|tauto].
  intros Hin. split; [|exact Hin].
  unfold joint_emitted, arm_group_defined in Hin.
  destruct j; trivial;
    repeat (apply andb_true_iff in Hin as [Hin ?]); trivial.
Qed.

(** C3 fails as stated: with only the left elbow angle undefined, the
    command of the right shoulder joint (actuator 7), whose angle is
    defined, is omitted as well. *)
Lemma degenerate_joint_counterexample :
  joint_angle 640 480 folded_wrist LeftElbow = None /\
  joint_angle 640 480 folded_wrist RightShoulder = Some 0 /\
  fst (calculate_servo_commands folded_wrist 640 480 (init false))
  = Ok (Some [ mkServoCommand 16 312 "R_shoulder_fwd";
               mkServoCommand 8 700 "L_shoulder_fwd" ]).
Proof.
  split; [|split].
  - unfold joint_angle. eval_lookups. unfold left_elbow_angle. cbn zeta.
    eval_angles. reflexivity.
  - unfold joint_angle. eval_lookups. unfold right_shoulder_angle. cbn zeta.
    eval_angles. reflexivity.
  - eval_frame. vm_compute. reflexivity.
Qed.

(** ** Mirror routing: what landmark 11 can influence *)

Lemma smooth_list_filter (keep : Z -> bool) (cs : list cand) (st st' : gmap Z Z) :
  (forall servo, keep servo = true -> st !! servo = st' !! servo) ->
  List.filter (fun c => keep (servo_id c)) (fst (smooth_list cs st))
  = fst (smooth_list (List.filter (fun c => keep (cand_id c)) cs) st') /\
  (forall servo, keep servo = true ->
     snd (smooth_list cs st) !! servo
     = snd (smooth_list (List.filter (fun c => keep (cand_id c)) cs) st') !! servo).
Proof.
  revert st st'. induction cs as [|c cs IH]; intros st st' Hag;
    cbn [smooth_list List.filter]; [split; [reflexivity|exact Hag]|].
  destruct (keep (cand_id c)) eqn:Ek.
  - cbn [smooth_list].
    assert (Hs : fst (smooth st (cand_id c) (cand_value c))
                 = fst (smooth st' (cand_id c) (cand_value c)) /\
                 forall servo, keep servo = true ->
                   snd (smooth st (cand_id c) (cand_value c)) !! servo
                   = snd (smooth st' (cand_id c) (cand_value c)) !! servo).
    { unfold smooth. rewrite <- (Hag _ Ek).
      destruct (st !! cand_id c) as [last|];
        [destruct (Z.abs (last - cand_value c) <? SMOOTHING_THRESHOLD)|];
        cbn [fst snd]; (split; [reflexivity|]); trivial;
        intros servo Hk; destruct (decide (servo = cand_id c)) as [->|Hne];
        rewrite ?lookup_insert_eq, ?lookup_insert_ne by congruence; auto. }
    destruct Hs as [Hp Hst].
    destruct (smooth st (cand_id c) (cand_value c)) as [p st1].
    destruct (smooth st' (cand_id c) (cand_value c)) as [p' st1'].
    cbn [fst snd] in Hp, Hst. subst p'.
    destruct (IH st1 st1' Hst) as [H1 H2].
    destruct (smooth_list cs st1) as [xs st2].
    destruct (smooth_list _ st1') as [xs' st2'].
    cbn [fst snd List.filter servo_id] in *. rewrite Ek.
    split; [now rewrite H1|exact H2].
  - assert (Hst : forall servo, keep servo = true ->
                    snd (smooth st (cand_id c) (cand_value c)) !! servo
                    = st' !! servo).
    { intros servo Hk. rewrite smooth_other; [now apply Hag|].
      intros ->. congruence. }
    destruct (smooth st (cand_id c) (cand_value c)) as [p st1].
    cbn [snd] in Hst.
    destruct (IH st1 st' Hst) as [H1 H2].
    destruct (smooth_list cs st1) as [xs st2].
    cbn [fst snd List.filter servo_id] in *. rewrite Ek.
    split; [exact H1|exact H2].
Qed.

Lemma find_filter (keep : Z -> bool) (servo : Z) (l : list ServoCommand) :
  keep servo = true ->
  List.find (fun c => servo_id c =? servo)
    (List.filter (fun c => keep (servo_id c)) l)
  = List.find (fun c => servo_id c =? servo) l.
Proof.
  intros Hk. induction l as [|c l IH]; cbn [List.find List.filter]; [easy|].
  destruct (Z.eqb_spec (servo_id c) servo) as [E|E].
  - rewrite E, Hk. cbn [List.find]. now rewrite <- E, Z.eqb_refl.
  - destruct (keep (servo_id c)); [cbn [List.find]|]; trivial.
    destruct (Z.eqb_spec (servo_id c) servo); [contradiction|exact IH].
Qed.

Lemma outside_true (excluded : list Z) (servo : Z) :
  ~ In servo excluded -> outside excluded servo = true.
Proof.
  intros H. unfold outside. apply negb_true_iff.
  destruct (existsb (Z.eqb servo) excluded) eqn:E; [|reflexivity].
  apply existsb_exists in E as (x & Hx & Ex). apply Z.eqb_eq in Ex.
  subst x. contradiction.
Qed.

(** Two plans with the same kept candidates give the same kept commands. *)
Lemma frame_result_keep (keep : Z -> bool) self l1 l2 width height servo :
  snd (plan (full_body self) l1 width height)
  = snd (plan (full_body self) l2 width height) ->
  List.filter (fun c => keep (cand_id c))
    (fst (plan (full_body self) l1 width height))
  = List.filter (fun c => keep (cand_id c))
      (fst (plan (full_body self) l2 width height)) ->
  keep servo = true ->
  command_for servo (fst (frame_result self l1 width height))
  = command_for servo (fst (frame_result self l2 width height)).
Proof.
  intros Hs Hf Hk. unfold frame_result, command_for. cbn [fst].
  rewrite <- Hs. destruct (snd (plan _ l1 _ _)); [reflexivity|].
  assert (Hc : forall l, commands_of (Ok (nonempty l)) = l).
  { now intros [|]. }
  rewrite !Hc.
  rewrite <- (find_filter keep servo (fst (smooth_list (fst (plan _ l1 _ _)) _)) Hk).
  rewrite <- (find_filter keep servo (fst (smooth_list (fst (plan _ l2 _ _)) _)) Hk).
  destruct (smooth_list_filter keep (fst (plan (full_body self) l1 width height))
              (last_servos self) (last_servos self)) as [-> _]; [trivial|].
  destruct (smooth_list_filter keep (fst (plan (full_body self) l2 width height))
              (last_servos self) (last_servos self)) as [-> _]; [trivial|].
  now rewrite Hf.
Qed.

Lemma arm_cands_outside_guarded width height l11 l12 l13 l14 l15 l16 :
  List.filter (fun c => outside guarded_or_right (cand_id c))
    (arm_cands width height l11 l12 l13 l14 l15 l16) = [].
Proof.
  unfold arm_cands.
  destruct (left_shoulder_angle width height l11 l13),
    (left_elbow_angle width height l11 l13 l15),
    (right_shoulder_angle width height l12 l14),
    (right_elbow_angle width height l12 l14 l16); reflexivity.
Qed.

Lemma arm_cands_outside_right width height l11 l l12 l13 l14 l15 l16 :
  arms_defined width height l11 l12 l13 l14 l15 l16
  = arms_defined width height l l12 l13 l14 l15 l16 ->
  List.filter (fun c => outside right_arm_servos (cand_id c))
    (arm_cands width height l11 l12 l13 l14 l15 l16)
  = List.filter (fun c => outside right_arm_servos (cand_id c))
      (arm_cands width height l l12 l13 l14 l15 l16).
Proof.
  unfold arm_cands, arms_defined.
  destruct (left_shoulder_angle width height l11 l13),
    (left_elbow_angle width height l11 l13 l15),
    (left_shoulder_angle width height l l13),
    (left_elbow_angle width height l l13 l15),
    (right_shoulder_angle width height l12 l14),
    (right_elbow_angle width height l12 l14 l16);
    cbn; intros H; try discriminate; reflexivity.
Qed.

Lemma lookup_insert_11 (landmarks : list Landmark) (l : Landmark) :
  (forall i, i <> 11%nat -> <[11%nat := l]> landmarks !! i = landmarks !! i) /\
  <[11%nat := l]> landmarks !! 11%nat
  = match landmarks !! 11%nat with Some _ => Some l | None => None end.
Proof.
  split.
  - intros i Hi. apply list_lookup_insert_ne. congruence.
  - destruct (landmarks !! 11%nat) eqn:E.
    + apply list_lookup_insert_eq. eapply lookup_lt_Some, E.
    + apply lookup_ge_None. rewrite length_insert. now apply lookup_ge_None.
Qed.

Lemma plan_insert_11 fb (landmarks : list Landmark) (l : Landmark) width height :
  let changed := <[11%nat := l]> landmarks in
  snd (plan fb landmarks width height) = snd (plan fb changed width height) /\
  List.filter (fun c => outside guarded_or_right (cand_id c))
    (fst (plan fb landmarks width height))
  = List.filter (fun c => outside guarded_or_right (cand_id c))
      (fst (plan fb changed width height)) /\
  (arm_group_defined width height landmarks
   = arm_group_defined width height changed ->
   List.filter (fun c => outside right_arm_servos (cand_id c))
     (fst (plan fb landmarks width height))
   = List.filter (fun c => outside right_arm_servos (cand_id c))
       (fst (plan fb changed width height))).
Proof.
  cbn zeta. destruct (lookup_insert_11 landmarks l) as [Hne Heq].
  unfold plan, arm_group_defined, joint_angle. cbn [lookups].
  rewrite Heq, !Hne by lia.
  destruct fb; split_lookups landmarks; try (repeat split; reflexivity);
    rewrite ?List.filter_app, ?arm_cands_outside_guarded;
    (split; [reflexivity|]); (split; [reflexivity|]);
    intros H; rewrite (arm_cands_outside_right width height _ l _ _ _ _ _ H);
    reflexivity.
Qed.

(** C6, as the code has it.  Take two frames that differ only in
    landmark 11 and process them from the same engine state.  The
    commands of every actuator other than 15, 14, 7, 6 and 16 (among
    them the left shoulder-forward actuator 8) are identical.  If
    moreover the arm guard has the same outcome in both frames, the
    commands of every actuator other than the robot's right-side arm
    actuators 15, 14 and 16 are identical, presence and position; in
    particular that of the left shoulder actuator 7. *)
Theorem left_shoulder_isolation :
  forall (self : TonyPiPoseMimic) (landmarks : list Landmark) (l : Landmark)
         (width height : Z),
    let changed := <[11%nat := l]> landmarks in
    let r1 := fst (calculate_servo_commands landmarks width height self) in
    let r2 := fst (calculate_servo_commands changed width height self) in
    (forall servo, ~ In servo guarded_or_right ->
                   command_for servo r1 = command_for servo r2) /\
    (arm_group_defined width height landmarks
     = arm_group_defined width height changed ->
     forall servo, ~ In servo right_arm_servos ->
                   command_for servo r1 = command_for servo r2).
Proof.
  intros self landmarks l width height. cbn zeta.
  rewrite !calculate_servo_commands_nf.
  destruct (plan_insert_11 (full_body self) landmarks l width height)
    as (Hs & Hg & Hr).
  split.
  - intros servo Hn.
    apply (frame_result_keep (outside guarded_or_right)); trivial.
    now apply outside_true.
  - intros Ha servo Hn.
    apply (frame_result_keep (outside right_arm_servos)); auto.
    now apply outside_true.
Qed.

Lemma t_pose_arm_group : arm_group_defined 640 480 t_pose = true.
Proof.
  unfold arm_group_defined, joint_angle. eval_lookups.
  unfold left_shoulder_angle, left_elbow_angle, right_shoulder_angle,
    right_elbow_angle. cbn zeta. eval_angles. reflexivity.
Qed.

Lemma shifted_shoulder_arm_group : arm_group_defined 640 480 shifted_shoulder = true.
Proof.
  unfold arm_group_defined, joint_angle. eval_lookups.
  unfold left_shoulder_angle, left_elbow_angle, right_shoulder_angle,
    right_elbow_angle. cbn zeta. eval_angles. reflexivity.
Qed.

Lemma left_shoulder_isolation_witness :
  command_for 7 (fst (calculate_servo_commands t_pose 640 480 (init true)))
  = command_for 7 (fst (calculate_servo_commands shifted_shoulder 640 480 (init true))).
Proof.
  apply (proj2 (left_shoulder_isolation (init true) t_pose
                  (mkLandmark (11 # 16) (1 # 4) (1 # 10)) 640 480)).
  - fold shifted_shoulder.
    now rewrite t_pose_arm_group, shifted_shoulder_arm_group.
  - cbn. lia.
Defined.

(** C6 fails as stated: moving only landmark 11 (onto the left elbow)
    removes the command of the left shoulder actuator 7. *)
Lemma left_shoulder_counterexample :
  moved_shoulder = <[11%nat := t_pose_landmark 13]> t_pose /\
  command_for 7 (fst (calculate_servo_commands t_pose 640 480 (init false)))
  = Some (mkServoCommand 7 500 "L_shoulder_side") /\
  command_for 7 (fst (calculate_servo_commands moved_shoulder 640 480 (init false)))
  = None.
Proof.
  split; [reflexivity|]. split.
  - eval_frame. vm_compute. reflexivity.
  - eval_frame. vm_compute. reflexivity.
Qed.

(** * Further properties of the engine *)

#[local] Set Warnings "-clear-no-such-hyp".

(** ** Clamping *)

(** X1.  [clamp_servo]: with [min_val <= max_val] the result lies in
    [min_val, max_val], equals the value when that is in range, the
    nearer bound otherwise; clamping is monotone and idempotent.  With
    the default limits, 1000 gives 875 and -50 gives 125. *)
Theorem clamp_servo_in_spec :
  forall value min_val max_val : Z,
    min_val <= max_val ->
    min_val <= clamp_servo_in value min_val max_val <= max_val /\
    (min_val <= value <= max_val -> clamp_servo_in value min_val max_val = value) /\
    (value <= min_val -> clamp_servo_in value min_val max_val = min_val) /\
    (max_val <= value -> clamp_servo_in value min_val max_val = max_val) /\
    (forall other, value <= other ->
        clamp_servo_in value min_val max_val
        <= clamp_servo_in other min_val max_val) /\
    clamp_servo_in (clamp_servo_in value min_val max_val) min_val max_val
    = clamp_servo_in value min_val max_val /\
    clamp_servo 1000 = 875 /\ clamp_servo (-50) = 125.
Proof.
  intros value min_val max_val H. unfold clamp_servo, clamp_servo_in.
  repeat split; try lia; intros; lia.
Qed.

Lemma clamp_servo_in_spec_witness :
  125 <= clamp_servo_in 1000 125 875 <= 875.
Proof. apply (clamp_servo_in_spec 1000 125 875). lia. Defined.

(** ** One smoothing step *)

(** X2.  [smooth_servo] never raises; the position it returns is within
    the threshold of the candidate, is what the memory holds for the
    actuator afterwards, and no other entry and not the mode is
    touched. *)
Theorem smooth_servo_tracks :
  forall (servo_id new_value : Z) (self : TonyPiPoseMimic),
    exists p self',
      smooth_servo servo_id new_value self = (Ok p, self') /\
      Z.abs (p - new_value) < SMOOTHING_THRESHOLD /\
      last_servos self' !! servo_id = Some p /\
      full_body self' = full_body self /\
      delete servo_id (last_servos self') = delete servo_id (last_servos self).
Proof.
  intros servo_id new_value self. unfold smooth_servo.
  destruct (last_servos self !! servo_id) as [last|] eqn:E.
  - destruct (Z.ltb_spec (Z.abs (last - new_value)) SMOOTHING_THRESHOLD) as [Hd|Hd].
    + exists last, self. repeat split; trivial.
    + eexists _, _. split; [reflexivity|]. cbn [last_servos full_body].
      rewrite lookup_insert_eq, delete_insert_eq.
      replace (new_value - new_value) with 0 by lia. repeat split.
  - eexists _, _. split; [reflexivity|]. cbn [last_servos full_body].
    rewrite lookup_insert_eq, delete_insert_eq.
    replace (new_value - new_value) with 0 by lia. repeat split.
Qed.

(** ** The memory across frames *)

Lemma frame_result_mode self landmarks width height :
  full_body (snd (frame_result self landmarks width height)) = full_body self.
Proof. reflexivity. Qed.

Lemma smooth_stored (st : gmap Z Z) (servo_id new_value : Z) :
  snd (smooth st servo_id new_value) !! servo_id
  = Some (fst (smooth st servo_id new_value)).
Proof.
  unfold smooth. destruct (st !! servo_id) as [last|] eqn:E;
    [destruct (Z.abs (last - new_value) <? SMOOTHING_THRESHOLD)|];
    cbn [fst snd]; trivial; apply lookup_insert_eq.
Qed.

Lemma smooth_list_stored (cs : list cand) (st : gmap Z Z) (servo : Z) :
  NoDup (map cand_id cs) ->
  snd (smooth_list cs st) !! servo
  = match List.find (fun c => servo_id c =? servo) (fst (smooth_list cs st)) with
    | Some c => Some (position c)
    | None => st !! servo
    end.
Proof.
  revert st. induction cs as [|c cs IH]; intros st Hnd; cbn [smooth_list];
    [reflexivity|].
  cbn [map] in Hnd. apply NoDup_cons in Hnd as [Hni Hnd].
  rewrite list_elem_of_In in Hni.
  pose proof (smooth_stored st (cand_id c) (cand_value c)) as H1.
  pose proof (smooth_other st (cand_id c) (cand_value c) servo) as H2.
  destruct (smooth st (cand_id c) (cand_value c)) as [p st1].
  cbn [fst snd] in H1, H2.
  pose proof (smooth_list_other cs st1 (cand_id c) Hni) as H3.
  specialize (IH st1 Hnd).
  destruct (smooth_list cs st1) as [xs st2]. cbn [fst snd] in *.
  cbn [List.find servo_id position].
  destruct (Z.eqb_spec (cand_id c) servo) as [<-|Hne].
  - now rewrite H3.
  - rewrite IH. destruct (List.find _ xs); [reflexivity|].
    apply H2. congruence.
Qed.

(** X3.  A call leaves the mode as it was.  When it returns, the memory
    afterwards holds, for every actuator, the position of the command
    just returned for it, and for an actuator without a command in this
    frame what it held before. *)
Theorem memory_is_last_emitted :
  forall (self : TonyPiPoseMimic) (landmarks : list Landmark) (width height : Z),
    let r := calculate_servo_commands landmarks width height self in
    full_body (snd r) = full_body self /\
    match fst r with
    | Ok _ =>
        forall servo,
          last_servos (snd r) !! servo
          = stored_after (last_servos self) (fst r) servo
    | Raise _ => True
    end.
Proof.
  intros self landmarks width height. cbn zeta.
  rewrite calculate_servo_commands_nf. split; [reflexivity|].
  unfold frame_result. cbn [fst snd last_servos].
  destruct (snd (plan _ _ _ _)); [trivial|].
  intros servo. unfold stored_after, command_for.
  rewrite smooth_list_stored by apply plan_ids_NoDup.
  assert (Hc : forall l, commands_of (Ok (nonempty l)) = l) by now intros [|].
  now rewrite Hc.
Qed.

(** The run loop keeps what every call and a mode switch keep. *)
Lemma run_invariant (P : TonyPiPoseMimic -> Prop) (Q : list ServoCommand -> Prop) :
  (forall landmarks width height self,
      P self ->
      P (snd (calculate_servo_commands landmarks width height self)) /\
      forall commands,
        fst (calculate_servo_commands landmarks width height self)
        = Ok (Some commands) -> Q commands) ->
  (forall self, P self -> P (mkMimic (negb (full_body self)) (last_servos self))) ->
  forall frames self,
    P self -> Forall Q (fst (run frames self)) /\ P (snd (run frames self)).
Proof.
  intros Hcall Htoggle.
  assert (Hdet : forall poses width height acc self,
             P self -> match acc with Some c => Q c | None => True end ->
             P (snd (detect_commands poses width height acc self)) /\
             forall commands,
               fst (detect_commands poses width height acc self) = Ok (Some commands) ->
               Q commands).
  { induction poses as [|landmarks rest IH]; intros width height acc self HP Hacc;
      cbn [detect_commands].
    - split; [exact HP|]. intros commands [= ->]. exact Hacc.
    - destruct (Hcall landmarks width height self HP) as [H1 H2].
      unfold bind.
      destruct (calculate_servo_commands landmarks width height self)
        as [[c|e] self'] eqn:E; cbn [fst snd] in *.
      + apply IH; [exact H1|]. destruct c; auto.
      + split; [exact H1|discriminate]. }
  assert (Hit : forall f self,
             P self ->
             P (snd (run_iteration f self)) /\
             forall commands,
               fst (run_iteration f self) = Ok (Some commands) -> Q commands).
  { intros f self HP. unfold run_iteration.
    destruct (Hdet (pose_landmarks f) (frame_width f) (frame_height f) None self
                HP I) as [H1 H2].
    unfold bind.
    destruct (detect_commands _ _ _ _ self) as [[c|e] self'];
      cbn [fst snd] in *; [|split; [exact H1|discriminate]].
    destruct (key_f f); cbn.
    - split; [now apply Htoggle|]. intros commands [= ->]. now apply H2.
    - split; [exact H1|]. intros commands [= ->]. now apply H2. }
  induction frames as [|f rest IH]; intros self HP; cbn [run].
  - split; [constructor|exact HP].
  - destruct (Hit f self HP) as [H1 H2].
    destruct (run_iteration f self) as [[[commands|]|e] self'];
      cbn [fst snd] in *.
    + destruct (IH self' H1) as [H3 H4].
      destruct (run rest self') as [out final]; cbn [fst snd] in *.
      split; [|exact H4]. constructor; [now apply H2|exact H3].
    + now apply IH.
    + split; [constructor|exact H1].
Qed.

Lemma smooth_keys (st : gmap Z Z) (servo_id new_value : Z) :
  dom (snd (smooth st servo_id new_value)) = {[ servo_id ]} ∪ dom st.
Proof.
  unfold smooth. destruct (st !! servo_id) as [last|] eqn:E;
    [destruct (Z.abs (last - new_value) <? SMOOTHING_THRESHOLD)|];
    cbn [snd]; rewrite ?dom_insert_L; trivial.
  apply (elem_of_dom_2 (D := gset Z)) in E. set_solver.
Qed.

Lemma smooth_list_keys (cs : list cand) (st : gmap Z Z) :
  dom (snd (smooth_list cs st)) = list_to_set (map cand_id cs) ∪ dom st.
Proof.
  revert st. induction cs as [|c cs IH]; intros st; cbn [smooth_list map].
  - cbn. set_solver.
  - pose proof (smooth_keys st (cand_id c) (cand_value c)) as H1.
    destruct (smooth st (cand_id c) (cand_value c)) as [p st1]. cbn [snd] in H1.
    specialize (IH st1). destruct (smooth_list cs st1) as [xs st2].
    cbn [snd] in *. rewrite IH, H1. cbn [list_to_set]. set_solver.
Qed.

Lemma call_keys self landmarks width height :
  dom (last_servos (snd (calculate_servo_commands landmarks width height self)))
  = list_to_set (map cand_id (fst (plan (full_body self) landmarks width height)))
    ∪ dom (last_servos self).
Proof.
  rewrite calculate_servo_commands_nf. unfold frame_result.
  cbn [snd last_servos]. apply smooth_list_keys.
Qed.

(** X4.  The memory never shrinks: an actuator stored before a call is
    still stored after it, whether the call returns or raises, and so
    over any sequence of frames and mode switches. *)
Theorem memory_never_shrinks :
  (forall (self : TonyPiPoseMimic) (landmarks : list Landmark) (width height : Z),
      dom (last_servos self)
      ⊆ dom (last_servos (snd (calculate_servo_commands landmarks width height self)))) /\
  (forall (frames : list frame) (self : TonyPiPoseMimic),
      dom (last_servos self) ⊆ dom (last_servos (snd (run frames self)))).
Proof.
  assert (H : forall self landmarks width height,
             dom (last_servos self)
             ⊆ dom (last_servos
                      (snd (calculate_servo_commands landmarks width height self)))).
  { intros. rewrite call_keys. set_solver. }
  split; [exact H|].
  intros frames self.
  apply (run_invariant (fun s => dom (last_servos self) ⊆ dom (last_servos s))
           (fun _ => True)).
  - intros landmarks width height s Hs. split; [|trivial].
    etransitivity; [exact Hs|apply H].
  - intros s Hs. exact Hs.
  - reflexivity.
Qed.

(** X5.  From a fresh engine, whatever the frames and mode switches, the
    memory only ever holds entries for the twelve tracked actuators. *)
Theorem memory_keys_tracked :
  forall (fb : bool) (frames : list frame),
    dom (last_servos (snd (run frames (init fb)))) ⊆ list_to_set (tracked true).
Proof.
  intros fb frames.
  apply (run_invariant
           (fun s => dom (last_servos s) ⊆ list_to_set (tracked true))
           (fun _ => True)).
  - intros landmarks width height s Hs. split; [|trivial].
    rewrite call_keys. apply union_least; [|exact Hs].
    intros k Hk. apply elem_of_list_to_set in Hk.
    apply elem_of_list_to_set, list_elem_of_In.
    pose proof (plan_ids_sublist (full_body s) landmarks width height) as Hsub.
    pose proof (elem_of_sublist _ _ _ Hk Hsub) as Hin.
    apply list_elem_of_In, emission_order_tracked in Hin.
    destruct (full_body s); [exact Hin|]. cbn in *. tauto.
  - intros s Hs. exact Hs.
  - cbn. set_solver.
Qed.

(** ** Shape of a frame's output *)

Lemma smooth_list_names (cs : list cand) (st : gmap Z Z) :
  Forall (fun c => cand_name c = servo_name (cand_id c)) cs ->
  Forall (fun c => name c = servo_name (servo_id c)) (fst (smooth_list cs st)).
Proof.
  revert st. induction cs as [|c cs IH]; intros st Hcs; cbn [smooth_list];
    [constructor|].
  inversion Hcs as [|? ? Hc Hcs']; subst.
  destruct (smooth st (cand_id c) (cand_value c)) as [p st1].
  specialize (IH st1 Hcs'). destruct (smooth_list cs st1) as [xs st2].
  cbn [fst] in *. constructor; [exact Hc|exact IH].
Qed.

Lemma plan_names fb landmarks width height :
  Forall (fun c => cand_name c = servo_name (cand_id c))
    (fst (plan fb landmarks width height)).
Proof.
  unfold plan, arm_cands, fwd_cands, hip_cands, knee_cands, opt_cand.
  cbn [lookups].
  destruct fb; split_lookups landmarks; try constructor;
    rewrite ?Forall_app;
    repeat match goal with
           | |- context [match ?a with Some _ => _ | None => _ end] => destruct a
           end; repeat split; repeat constructor.
Qed.

Lemma plan_length fb landmarks width height :
  snd (plan fb landmarks width height) = None ->
  let n := length (fst (plan fb landmarks width height)) in
  if fb then (4 <= n <= 12)%nat else n = 2%nat \/ n = 6%nat.
Proof.
  intros Hs. cbn zeta.
  rewrite <- (length_map cand_id). revert Hs.
  unfold plan. cbn [lookups].
  destruct fb; split_lookups landmarks; try discriminate; intros _;
    rewrite ?map_app, ?arm_cands_ids, ?hip_cands_ids, ?knee_cands_ids;
    repeat match goal with
           | |- context [if ?b then _ else _] => destruct b
           end; cbn; lia.
Qed.

(** X6.  The commands a call returns come in one fixed order (15, 14, 7,
    6, 16, 8, then 4, 12, 3, 11, 2, 10), each under the fixed name of
    its actuator.  In arms-only mode there are 2 or 6 of them, in
    full-body mode between 4 and 12. *)
Theorem commands_shape :
  forall (self : TonyPiPoseMimic) (landmarks : list Landmark) (width height : Z),
    match fst (calculate_servo_commands landmarks width height self) with
    | Ok (Some commands) =>
        map servo_id commands `sublist_of` emission_order (full_body self) /\
        Forall (fun c => name c = servo_name (servo_id c)) commands /\
        (if full_body self
         then (4 <= length commands <= 12)%nat
         else length commands = 2%nat \/ length commands = 6%nat)
    | _ => True
    end.
Proof.
  intros self landmarks width height.
  rewrite calculate_servo_commands_nf.
  destruct (fst (frame_result self landmarks width height))
    as [[commands|]|e] eqn:E; trivial.
  pose proof (frame_result_ids _ _ _ _ _ E) as Hi.
  pose proof (frame_result_Ok _ _ _ _ _ E) as [Hp _].
  unfold frame_result in E. cbn [fst] in E. rewrite Hp in E.
  injection E as E.
  assert (Hc : commands = fst (smooth_list
                 (fst (plan (full_body self) landmarks width height))
                 (last_servos self))).
  { unfold nonempty in E. destruct (fst (smooth_list _ _)); congruence. }
  split; [|split].
  - rewrite Hi. apply plan_ids_sublist.
  - rewrite Hc. apply smooth_list_names, plan_names.
  - pose proof (plan_length _ _ _ _ Hp) as Hl. cbn zeta in Hl.
    assert (Hn : length commands
                 = length (fst (plan (full_body self) landmarks width height))).
    { rewrite <- (length_map servo_id), Hi. apply length_map. }
    now rewrite Hn.
Qed.

Lemma plan_arms_prefix landmarks width height :
  snd (plan true landmarks width height) = None ->
  snd (plan false landmarks width height) = None /\
  exists rest,
    fst (plan true landmarks width height)
    = fst (plan false landmarks width height) ++ rest.
Proof.
  unfold plan. cbn [lookups].
  split_lookups landmarks; try discriminate; intros _.
  split; [reflexivity|]. eexists. reflexivity.
Qed.

Lemma commands_of_nonempty (l : list ServoCommand) :
  commands_of (Ok (nonempty l)) = l.
Proof. now destruct l. Qed.

(** X7.  The mode only adds commands: from the same memory and on the
    same frame, whenever the full-body call returns, the arms-only call
    returns as well, and its commands are the first commands of the
    full-body output. *)
Theorem arms_only_is_prefix :
  forall (st : gmap Z Z) (landmarks : list Landmark) (width height : Z),
    let full := fst (calculate_servo_commands landmarks width height (mkMimic true st)) in
    let arms := fst (calculate_servo_commands landmarks width height (mkMimic false st)) in
    match full with
    | Ok _ =>
        (exists oc, arms = Ok oc) /\
        commands_of arms `prefix_of` commands_of full
    | Raise _ => True
    end.
Proof.
  intros st landmarks width height. cbn zeta.
  rewrite !calculate_servo_commands_nf. unfold frame_result.
  cbn [full_body last_servos fst snd].
  destruct (snd (plan true landmarks width height)) eqn:Ht; [trivial|].
  destruct (plan_arms_prefix _ _ _ Ht) as (Hf & rest & Hr).
  rewrite Hf. split; [eauto|].
  rewrite !commands_of_nonempty, Hr, smooth_list_app.
  destruct (smooth_list (fst (plan false landmarks width height)) st) as [xs st1].
  destruct (smooth_list rest st1) as [ys st2]. cbn [fst].
  now exists ys.
Qed.

(** ** When an angle is undefined *)

Lemma is_zero_vsub (p q : Z * Z) : is_zero (vsub p q) = true <-> p = q.
Proof.
  rewrite is_zero_true. destruct p as [a b], q as [c d].
  unfold vsub; cbn [fst snd]. split.
  - intros [= H1 H2]. f_equal; lia.
  - intros [= -> ->]. f_equal; lia.
Qed.

Lemma angle_None_vsub (p q r s : Z * Z) :
  angle (vsub p q) (vsub r s) = None <-> p = q \/ r = s.
Proof.
  rewrite angle_None. unfold degenerate.
  now rewrite orb_true_iff, !is_zero_vsub.
Qed.

(** X8.  The planar angles are undefined exactly in these cases: a
    shoulder angle when the shoulder's pixel column is the image edge
    its reference point lies on (the right edge [width] for the left
    shoulder, column 0 for the right one) or when shoulder and elbow
    fall on the same pixel; an elbow angle when the elbow falls on the
    shoulder's or the wrist's pixel; a hip-side angle when hip and knee
    fall on the same pixel; a knee angle when the knee falls on the
    hip's or the ankle's pixel. *)
Theorem angle_undefined_iff :
  forall (width height : Z) (shoulder elbow wrist hip knee ankle : Landmark),
    let px := fun lm => pixel lm width height in
    (left_shoulder_angle width height shoulder elbow = None
     <-> fst (px shoulder) = width \/ px shoulder = px elbow) /\
    (right_shoulder_angle width height shoulder elbow = None
     <-> fst (px shoulder) = 0 \/ px shoulder = px elbow) /\
    (left_elbow_angle width height shoulder elbow wrist = None
     <-> px elbow = px shoulder \/ px wrist = px elbow) /\
    (right_elbow_angle width height shoulder elbow wrist = None
     <-> px elbow = px shoulder \/ px wrist = px elbow) /\
    (hip_side_angle width height hip knee = None <-> px hip = px knee) /\
    (knee_angle width height hip knee ankle = None
     <-> px hip = px knee \/ px ankle = px knee).
Proof.
  intros width height shoulder elbow wrist hip knee ankle px.
  unfold left_shoulder_angle, right_shoulder_angle, left_elbow_angle,
    right_elbow_angle, hip_side_angle, knee_angle. cbn zeta. fold (px shoulder).
  fold (px elbow). fold (px wrist). fold (px hip). fold (px knee). fold (px ankle).
  rewrite !angle_None_vsub.
  repeat split; try tauto.
  - intros [H|H]; [left|now right]. destruct (px shoulder); now injection H.
  - intros [H|H]; [left|now right]. destruct (px shoulder); cbn in *; congruence.
  - intros [H|H]; [left|now right]. destruct (px shoulder); now injection H.
  - intros [H|H]; [left|now right]. destruct (px shoulder); cbn in *; congruence.
  - intros [H|H]; [|exact H]. destruct (px hip); injection H; lia.
Qed.

(** ** Mirror routing of the legs *)

Lemma lookup_insert_at (landmarks : list Landmark) (i : nat) (l : Landmark) :
  (forall j, j <> i -> <[i := l]> landmarks !! j = landmarks !! j) /\
  <[i := l]> landmarks !! i
  = match landmarks !! i with Some _ => Some l | None => None end.
Proof.
  split.
  - intros j Hj. apply list_lookup_insert_ne. congruence.
  - destruct (landmarks !! i) eqn:E.
    + apply list_lookup_insert_eq. eapply lookup_lt_Some, E.
    + apply lookup_ge_None. rewrite length_insert. now apply lookup_ge_None.
Qed.

Lemma hip_cands_outside_right width height l23 l24 l25 l26 :
  List.filter (fun c => outside right_leg_servos (cand_id c))
    (hip_cands width height l23 l24 l25 l26)
  = opt_cand (hip_side_angle width height l24 l26)
      (fun a => (12, servo_of (inject_Z a) (-45) 45 250 550, "L_hip_side"%string))
    ++ [ (11, servo_of (lm_z l24 - lm_z l26) (-2 # 10) (2 # 10) 300 700,
          "L_hip_front"%string) ].
Proof.
  unfold hip_cands.
  destruct (hip_side_angle width height l23 l25),
    (hip_side_angle width height l24 l26); reflexivity.
Qed.

Lemma knee_cands_outside_right width height l23 l24 l25 l26 l27 l28 :
  List.filter (fun c => outside right_leg_servos (cand_id c))
    (knee_cands width height l23 l24 l25 l26 l27 l28)
  = opt_cand (knee_angle width height l24 l26 l28)
      (fun a => (10, servo_of (inject_Z (Z.abs a)) 90 180 850 610, "L_knee"%string)).
Proof.
  unfold knee_cands.
  destruct (knee_angle width height l23 l25 l27),
    (knee_angle width height l24 l26 l28); reflexivity.
Qed.

Lemma hip_cands_outside_left width height l23 l24 l25 l26 :
  List.filter (fun c => outside left_leg_servos (cand_id c))
    (hip_cands width height l23 l24 l25 l26)
  = opt_cand (hip_side_angle width height l23 l25)
      (fun a => (4, servo_of (inject_Z a) (-45) 45 450 750, "R_hip_side"%string))
    ++ [ (3, servo_of (lm_z l23 - lm_z l25) (-2 # 10) (2 # 10) 700 300,
          "R_hip_front"%string) ].
Proof.
  unfold hip_cands.
  destruct (hip_side_angle width height l23 l25),
    (hip_side_angle width height l24 l26); reflexivity.
Qed.

Lemma knee_cands_outside_left width height l23 l24 l25 l26 l27 l28 :
  List.filter (fun c => outside left_leg_servos (cand_id c))
    (knee_cands width height l23 l24 l25 l26 l27 l28)
  = opt_cand (knee_angle width height l23 l25 l27)
      (fun a => (2, servo_of (inject_Z (Z.abs a)) 90 180 150 390, "R_knee"%string)).
Proof.
  unfold knee_cands.
  destruct (knee_angle width height l23 l25 l27),
    (knee_angle width height l24 l26 l28); reflexivity.
Qed.

Ltac plan_insert_leg :=
  match goal with
  | |- context [<[?i := ?l]> ?landmarks] =>
      destruct (lookup_insert_at landmarks i l) as [Hne Heq];
      unfold plan; cbn [lookups];
      rewrite ?Heq, ?Hne by lia;
      split_lookups landmarks; try (split; reflexivity);
      (split; [reflexivity|]);
      rewrite ?List.filter_app;
      rewrite ?hip_cands_outside_right, ?knee_cands_outside_right,
        ?hip_cands_outside_left, ?knee_cands_outside_left;
      rewrite ?hip_cands_outside_right, ?knee_cands_outside_right,
        ?hip_cands_outside_left, ?knee_cands_outside_left;
      reflexivity
  end.

Lemma plan_insert_left_leg fb (landmarks : list Landmark) (i : nat) (l : Landmark)
  width height :
  In i left_leg_landmarks ->
  snd (plan fb landmarks width height)
  = snd (plan fb (<[i := l]> landmarks) width height) /\
  List.filter (fun c => outside right_leg_servos (cand_id c))
    (fst (plan fb landmarks width height))
  = List.filter (fun c => outside right_leg_servos (cand_id c))
      (fst (plan fb (<[i := l]> landmarks) width height)).
Proof.
  intros [<-|[<-|[<-|[]]]]; destruct fb; plan_insert_leg.
Qed.

Lemma plan_insert_right_leg fb (landmarks : list Landmark) (i : nat) (l : Landmark)
  width height :
  In i right_leg_landmarks ->
  snd (plan fb landmarks width height)
  = snd (plan fb (<[i := l]> landmarks) width height) /\
  List.filter (fun c => outside left_leg_servos (cand_id c))
    (fst (plan fb landmarks width height))
  = List.filter (fun c => outside left_leg_servos (cand_id c))
      (fst (plan fb (<[i := l]> landmarks) width height)).
Proof.
  intros [<-|[<-|[<-|[]]]]; destruct fb; plan_insert_leg.
Qed.

(** X9.  Mirror routing of the legs holds without exception: take two
    frames that differ in one camera-left leg landmark (23, 25 or 27)
    and process them from the same state; then only the commands of the
    robot's right leg actuators 4, 3 and 2 can differ, every other
    command is identical in presence and position.  Likewise a
    camera-right leg landmark (24, 26 or 28) only reaches the left leg
    actuators 12, 11 and 10. *)
Theorem leg_mirror_isolation :
  forall (self : TonyPiPoseMimic) (landmarks : list Landmark) (i : nat)
         (l : Landmark) (width height : Z) (servo : Z),
    let r1 := fst (calculate_servo_commands landmarks width height self) in
    let r2 := fst (calculate_servo_commands (<[i := l]> landmarks) width height self) in
    (In i left_leg_landmarks -> ~ In servo right_leg_servos ->
     command_for servo r1 = command_for servo r2) /\
    (In i right_leg_landmarks -> ~ In servo left_leg_servos ->
     command_for servo r1 = command_for servo r2).
Proof.
  intros self landmarks i l width height servo. cbn zeta.
  rewrite !calculate_servo_commands_nf. split; intros Hi Hs.
  - destruct (plan_insert_left_leg (full_body self) landmarks i l width height Hi)
      as [H1 H2].
    apply (frame_result_keep (outside right_leg_servos)); trivial.
    now apply outside_true.
  - destruct (plan_insert_right_leg (full_body self) landmarks i l width height Hi)
      as [H1 H2].
    apply (frame_result_keep (outside left_leg_servos)); trivial.
    now apply outside_true.
Qed.

Lemma leg_mirror_isolation_witness :
  command_for 10 (fst (calculate_servo_commands t_pose 640 480 (init true)))
  = command_for 10
      (fst (calculate_servo_commands
              (<[25%nat := mkLandmark (1 # 2) (3 # 4) (1 # 10)]> t_pose)
              640 480 (init true))).
Proof.
  apply (proj1 (leg_mirror_isolation (init true) t_pose 25
                  (mkLandmark (1 # 2) (3 # 4) (1 # 10)) 640 480 10)).
  - cbn. tauto.
  - cbn. lia.
Defined.

(** ** Truncation and the range mapping *)

Lemma py_int_nonneg (q : Q) : (0 <= q)%Q -> py_int q = Qfloor q.
Proof.
  destruct q as [n d]. unfold Qle, py_int, Qfloor; cbn. intros H.
  apply Z.quot_div_nonneg; lia.
Qed.

Lemma py_int_nonpos (q : Q) : (q <= 0)%Q -> py_int q = Qceiling q.
Proof.
  destruct q as [n d]. unfold Qle, py_int, Qceiling, Qfloor; cbn. intros H.
  assert (Hn : n <= 0) by lia.
  replace n with (- - n) at 1 by lia.
  rewrite Z.quot_opp_l by lia. f_equal.
  apply Z.quot_div_nonneg; lia.
Qed.

Lemma py_int_mono (q1 q2 : Q) : (q1 <= q2)%Q -> py_int q1 <= py_int q2.
Proof.
  intros H. destruct (Qlt_le_dec q1 0) as [H1|H1], (Qlt_le_dec q2 0) as [H2|H2].
  - rewrite !py_int_nonpos by now apply Qlt_le_weak.
    now apply Qceiling_resp_le.
  - rewrite (py_int_nonpos q1) by now apply Qlt_le_weak.
    rewrite (py_int_nonneg q2) by exact H2.
    transitivity 0.
    + change 0 with (Qceiling 0). apply Qceiling_resp_le. now apply Qlt_le_weak.
    + change 0 with (Qfloor 0). now apply Qfloor_resp_le.
  - exfalso. apply (Qlt_irrefl 0).
    eapply Qle_lt_trans; [exact H1|]. eapply Qle_lt_trans; [exact H|exact H2].
  - rewrite !py_int_nonneg by trivial. now apply Qfloor_resp_le.
Qed.

Lemma py_int_eq (q : Q) (n : Z) : (q == inject_Z n)%Q -> py_int q = n.
Proof.
  intros H. apply Z.le_antisymm.
  - rewrite <- (py_int_inject_Z n). apply py_int_mono. rewrite H. apply Qle_refl.
  - rewrite <- (py_int_inject_Z n) at 1. apply py_int_mono. rewrite H.
    apply Qle_refl.
Qed.

Lemma clamp_servo_mono (a b : Z) : a <= b -> clamp_servo a <= clamp_servo b.
Proof. unfold clamp_servo, clamp_servo_in. lia. Qed.

Lemma val_map_mono (x x' in_min in_max out_min out_max : Q) :
  (in_min < in_max)%Q -> (out_min <= out_max)%Q -> (x <= x')%Q ->
  (val_map x in_min in_max out_min out_max
   <= val_map x' in_min in_max out_min out_max)%Q.
Proof.
  intros Hi Ho Hx. unfold val_map.
  apply Qplus_le_l. unfold Qdiv. apply Qmult_le_compat_r.
  - apply Qmult_le_compat_r; [|].
    + now apply Qplus_le_l.
    + apply (Qplus_le_l _ _ out_min). ring_simplify. exact Ho.
  - apply Qlt_le_weak, Qinv_lt_0_compat.
    apply (Qplus_lt_l _ _ in_min). ring_simplify. exact Hi.
Qed.

Lemma val_map_anti (x x' in_min in_max out_min out_max : Q) :
  (in_min < in_max)%Q -> (out_max <= out_min)%Q -> (x <= x')%Q ->
  (val_map x' in_min in_max out_min out_max
   <= val_map x in_min in_max out_min out_max)%Q.
Proof.
  intros Hi Ho Hx.
  assert (E : forall y, (val_map y in_min in_max out_min out_max
                         == out_min + out_max
                            - val_map y in_min in_max out_max out_min)%Q).
  { intros y. unfold val_map. field. intros E.
    apply Qminus_zero_eq in E. rewrite E in Hi. now apply Qlt_irrefl in Hi. }
  rewrite (E x), (E x').
  apply Qplus_le_r, Qopp_le_compat. now apply val_map_mono.
Qed.

Lemma servo_of_mono (x x' in_min in_max out_min out_max : Q) :
  (in_min < in_max)%Q -> (out_min <= out_max)%Q -> (x <= x')%Q ->
  servo_of x in_min in_max out_min out_max
  <= servo_of x' in_min in_max out_min out_max.
Proof.
  intros. apply clamp_servo_mono, py_int_mono. now apply val_map_mono.
Qed.

Lemma servo_of_anti (x x' in_min in_max out_min out_max : Q) :
  (in_min < in_max)%Q -> (out_max <= out_min)%Q -> (x <= x')%Q ->
  servo_of x' in_min in_max out_min out_max
  <= servo_of x in_min in_max out_min out_max.
Proof.
  intros. apply clamp_servo_mono, py_int_mono. now apply val_map_anti.
Qed.

Lemma servo_of_ends (in_min in_max : Q) (lo hi : Z) :
  (in_min < in_max)%Q ->
  servo_of in_min in_min in_max (inject_Z lo) (inject_Z hi) = clamp_servo lo /\
  servo_of in_max in_min in_max (inject_Z lo) (inject_Z hi) = clamp_servo hi.
Proof.
  intros Hi. unfold servo_of.
  assert (Hd : ~ (in_max - in_min == 0)%Q).
  { intros E. apply Qminus_zero_eq in E. rewrite E in Hi.
    now apply Qlt_irrefl in Hi. }
  split; f_equal; apply py_int_eq; unfold val_map; now field.
Qed.

(** X11.  The mapping from a raw signal to a clamped position,
    [clamp_servo(int(val_map(...)))], is monotone: for
    [in_min < in_max] it does not decrease with the signal when
    [out_min <= out_max] and does not increase when
    [out_max <= out_min].  At [in_min] and [in_max], with integer
    output ends, it gives the clamped [out_min] and [out_max]. *)
Theorem servo_of_monotone :
  forall (x x' in_min in_max out_min out_max : Q),
    (in_min < in_max)%Q -> (x <= x')%Q ->
    ((out_min <= out_max)%Q ->
     servo_of x in_min in_max out_min out_max
     <= servo_of x' in_min in_max out_min out_max) /\
    ((out_max <= out_min)%Q ->
     servo_of x' in_min in_max out_min out_max
     <= servo_of x in_min in_max out_min out_max) /\
    (forall lo hi : Z,
        servo_of in_min in_min in_max (inject_Z lo) (inject_Z hi) = clamp_servo lo /\
        servo_of in_max in_min in_max (inject_Z lo) (inject_Z hi) = clamp_servo hi).
Proof.
  intros x x' in_min in_max out_min out_max Hi Hx.
  split; [|split].
  - intros Ho. now apply servo_of_mono.
  - intros Ho. now apply servo_of_anti.
  - intros lo hi. now apply servo_of_ends.
Qed.

Lemma servo_of_monotone_witness :
  servo_of (-45) (-90) 90 125 875 <= servo_of 30 (-90) 90 125 875.
Proof.
  apply (servo_of_monotone (-45) 30 (-90) 90 125 875); reflexivity || discriminate.
Defined.

(** ** Pixel conversion *)

Lemma py_int_between (q : Q) (n : Z) :
  (0 <= q)%Q -> (q <= inject_Z n)%Q -> 0 <= py_int q <= n.
Proof.
  intros H0 Hn. split.
  - change 0 with (py_int 0). now apply py_int_mono.
  - rewrite <- (py_int_inject_Z n). now apply py_int_mono.
Qed.

Lemma scaled_between (x : Q) (n : Z) :
  (0 <= x)%Q -> (x <= 1)%Q -> 0 <= n ->
  (0 <= x * inject_Z n)%Q /\ (x * inject_Z n <= inject_Z n)%Q.
Proof.
  intros H0 H1 Hn.
  assert (Hq : (0 <= inject_Z n)%Q) by (unfold Qle; cbn; lia).
  split.
  - now apply Qmult_le_0_compat.
  - rewrite <- (Qmult_1_l (inject_Z n)) at 2. now apply Qmult_le_compat_r.
Qed.

(** X13.  [get_point] raises [IndexError] exactly when the index is
    absent and leaves the engine untouched either way.  For a landmark
    with normalised coordinates in [0, 1] and a non-negative image size
    the pixel it returns lies in [0, width] x [0, height] (the far edge
    included). *)
Theorem get_point_in_image :
  forall (landmarks : list Landmark) (idx : nat) (width height : Z)
         (self : TonyPiPoseMimic),
    match landmarks !! idx with
    | None => get_point landmarks idx width height self = (Raise IndexError, self)
    | Some lm =>
        get_point landmarks idx width height self
        = (Ok (pixel lm width height), self) /\
        ((0 <= lm_x lm)%Q -> (lm_x lm <= 1)%Q -> 0 <= width ->
         0 <= fst (pixel lm width height) <= width) /\
        ((0 <= lm_y lm)%Q -> (lm_y lm <= 1)%Q -> 0 <= height ->
         0 <= snd (pixel lm width height) <= height)
    end.
Proof.
  intros landmarks idx width height self.
  destruct (landmarks !! idx) as [lm|] eqn:E.
  - split; [now apply get_point_Some|].
    unfold pixel; cbn [fst snd]. split; intros H0 H1 Hn;
      apply py_int_between; now apply scaled_between.
  - now apply get_point_None.
Qed.

Lemma get_point_in_image_witness :
  0 <= fst (pixel (t_pose_landmark 11) 640 480) <= 640.
Proof.
  apply (get_point_in_image t_pose 11 640 480 (init true));
    vm_compute; congruence.
Defined.

(** ** Knee limits *)

Lemma angle_range (v1 v2 : Z * Z) (a : Z) :
  angle v1 v2 = Some a -> -180 < a <= 180.
Proof.
  unfold angle. intros E.
  assert (Hd : (Angle.norm (to_vec v1) * Angle.norm (to_vec v2))%R <> 0%R).
  { intros Hd. apply AngleFacts.d_zero_iff, AngleSpec.vector_2d_angle_None in Hd.
    congruence. }
  rewrite (AngleSpec.vector_2d_angle_Some _ _ Hd) in E. injection E as <-.
  apply AngleFacts.trunc_bound; [lia|].
  apply AngleFacts.degrees_bound, AngleFacts.arctan2_bound.
Qed.

Lemma inject_Z_le (a b : Z) : a <= b -> (inject_Z a <= inject_Z b)%Q.
Proof. intros H. unfold Qle; cbn. lia. Qed.

Lemma knee_cands_limit width height l23 l24 l25 l26 l27 l28 :
  Forall (fun c => knee_limit (cand_id c) (cand_value c))
    (knee_cands width height l23 l24 l25 l26 l27 l28).
Proof.
  assert (H2 : forall a, -180 < a <= 180 ->
             servo_of (inject_Z (Z.abs a)) 90 180 150 390 <= 390).
  { intros a Ha.
    change 390 with (clamp_servo 390) at 2.
    rewrite <- (proj2 (servo_of_ends 90 180 150 390 eq_refl)).
    apply servo_of_mono; [reflexivity|discriminate|].
    apply (inject_Z_le _ 180). lia. }
  assert (H10 : forall a, -180 < a <= 180 ->
              610 <= servo_of (inject_Z (Z.abs a)) 90 180 850 610).
  { intros a Ha.
    change 610 with (clamp_servo 610) at 1.
    rewrite <- (proj2 (servo_of_ends 90 180 850 610 eq_refl)).
    apply servo_of_anti; [reflexivity|discriminate|].
    apply (inject_Z_le _ 180). lia. }
  unfold knee_cands, knee_angle. rewrite Forall_app. split.
  - destruct (angle _ _) as [a|] eqn:E; cbn [opt_cand]; repeat constructor;
      cbn; try discriminate. intros _. eapply H2, angle_range, E.
  - destruct (angle _ _) as [a|] eqn:E; cbn [opt_cand]; repeat constructor;
      cbn; try discriminate. intros _. eapply H10, angle_range, E.
Qed.

Lemma plan_knee_limit fb landmarks width height :
  Forall (fun c => knee_limit (cand_id c) (cand_value c))
    (fst (plan fb landmarks width height)).
Proof.
  assert (Hother : forall cs,
             Forall (fun servo => servo <> 2 /\ servo <> 10) (map cand_id cs) ->
             Forall (fun c => knee_limit (cand_id c) (cand_value c)) cs).
  { intros cs H. rewrite List.Forall_map in H.
    eapply Forall_impl; [exact H|]. intros c [H2 H10].
    split; intros; contradiction. }
  assert (Harm : forall l11 l12 l13 l14 l15 l16,
             Forall (fun c => knee_limit (cand_id c) (cand_value c))
               (arm_cands width height l11 l12 l13 l14 l15 l16)).
  { intros. apply Hother. rewrite arm_cands_ids.
    destruct (arms_defined _ _ _ _ _ _ _ _); repeat constructor; lia. }
  assert (Hfwd : forall l11 l12 l15 l16,
             Forall (fun c => knee_limit (cand_id c) (cand_value c))
               (fwd_cands l11 l12 l15 l16)).
  { intros. apply Hother. repeat constructor; cbn; lia. }
  assert (Hhip : forall l23 l24 l25 l26,
             Forall (fun c => knee_limit (cand_id c) (cand_value c))
               (hip_cands width height l23 l24 l25 l26)).
  { intros. apply Hother. rewrite hip_cands_ids.
    destruct (defined _), (defined _); repeat constructor; cbn; lia. }
  pose proof knee_cands_limit as Hknee.
  unfold plan. cbn [lookups].
  destruct fb; split_lookups landmarks; rewrite ?Forall_app; auto.
Qed.

Lemma smooth_list_respects (R : Z -> Z -> Prop) (cs : list cand) (st : gmap Z Z) :
  Forall (fun c => R (cand_id c) (cand_value c)) cs ->
  map_Forall R st ->
  Forall (fun c => R (servo_id c) (position c)) (fst (smooth_list cs st)) /\
  map_Forall R (snd (smooth_list cs st)).
Proof.
  revert st. induction cs as [|c cs IH]; intros st Hcs Hst; cbn [smooth_list].
  - split; [constructor|exact Hst].
  - inversion Hcs as [|? ? Hc Hcs']; subst.
    assert (H1 : R (cand_id c) (fst (smooth st (cand_id c) (cand_value c))) /\
                 map_Forall R (snd (smooth st (cand_id c) (cand_value c)))).
    { unfold smooth. destruct (st !! cand_id c) as [last|] eqn:E;
        [destruct (Z.abs (last - cand_value c) <? SMOOTHING_THRESHOLD)|];
        cbn [fst snd].
      - split; [exact (Hst _ _ E)|exact Hst].
      - split; [exact Hc|]. now apply map_Forall_insert_2.
      - split; [exact Hc|]. now apply map_Forall_insert_2. }
    destruct H1 as [H1 H2].
    destruct (smooth st (cand_id c) (cand_value c)) as [p st1].
    destruct (IH st1 Hcs' H2) as [H3 H4].
    destruct (smooth_list cs st1) as [xs st2]. cbn [fst snd] in *.
    split; [|exact H4]. constructor; [exact H1|exact H3].
Qed.

(** X10.  From a fresh engine, over any frames and mode switches, the
    right knee command (actuator 2) never exceeds 390 and the left knee
    command (actuator 10) never goes below 610, the standing-pose
    values; the same holds for what the memory stores for them.  The
    knee angle is at most 180 degrees in absolute value, which the
    calibration maps onto these ends. *)
Theorem knee_never_overextends :
  forall (fb : bool) (frames : list frame),
    Forall (Forall (fun c => knee_limit (servo_id c) (position c)))
      (fst (run frames (init fb))) /\
    map_Forall knee_limit (last_servos (snd (run frames (init fb)))).
Proof.
  intros fb frames.
  apply (run_invariant (fun s => map_Forall knee_limit (last_servos s))
           (Forall (fun c => knee_limit (servo_id c) (position c)))).
  - intros landmarks width height s Hs.
    rewrite calculate_servo_commands_nf. unfold frame_result.
    cbn [fst snd last_servos].
    destruct (smooth_list_respects knee_limit _ _
                (plan_knee_limit (full_body s) landmarks width height) Hs)
      as [H1 H2].
    split; [exact H2|].
    intros commands. destruct (snd (plan _ _ _ _)); [discriminate|].
    intros [= E]. unfold nonempty in E.
    destruct (fst (smooth_list _ _)); [discriminate|]. now injection E as <-.
  - intros s Hs. exact Hs.
  - cbn. apply map_Forall_empty.
Qed.

(** ** Symmetries of the angle *)

Module AngleSymmetry.
Import Angle AngleFacts AngleSpec.
Local Open Scope R_scope.

Lemma trunc_opp (r : R) : trunc (- r) = (- trunc r)%Z.
Proof.
  unfold trunc.
  destruct (Rle_dec 0 r) as [H1|H1], (Rle_dec 0 (- r)) as [H2|H2].
  - assert (r = 0) by lra. subst r. rewrite Ropp_0.
    replace (Int_part 0) with 0%Z; [reflexivity|].
    apply Int_part_spec. lra.
  - now rewrite Ropp_involutive.
  - lia.
  - lra.
Qed.

Lemma degrees_opp (r : R) : degrees (- r) = - degrees r.
Proof. pose proof PI_RGT_0. unfold degrees. field. lra. Qed.

Lemma arctan2_opp (y x : R) :
  y <> 0 \/ 0 < x -> arctan2 (- y) x = - arctan2 y x.
Proof.
  intros H. unfold arctan2.
  assert (Hq : x <> 0 -> - y / x = - (y / x)) by (intros; field; trivial).
  destruct (Rlt_dec 0 x) as [Hx|Hx].
  - rewrite Hq by lra. apply atan_opp.
  - destruct (Rlt_dec x 0) as [Hx'|Hx'].
    + rewrite Hq by lra. rewrite atan_opp.
      destruct (Rle_dec 0 (- y)), (Rle_dec 0 y); lra.
    + destruct (Rlt_dec 0 (- y)), (Rlt_dec (- y) 0), (Rlt_dec 0 y),
        (Rlt_dec y 0); lra.
Qed.

Lemma arctan2_stretch (k y x : R) : 0 < k -> arctan2 (k * y) (k * x) = arctan2 y x.
Proof.
  intros Hk. rewrite <- (arctan2_scale (k * y) (k * x) k Hk).
  f_equal; field; lra.
Qed.

Lemma norm_scale_zero (k : R) (v : vec) :
  0 < k -> (norm (scale k v) = 0 <-> norm v = 0).
Proof.
  intros Hk. rewrite !norm_zero_iff. destruct v as [a b].
  unfold scale; cbn [fst snd]. split.
  - intros [= Ha Hb]. f_equal; nra.
  - intros [= -> ->]. f_equal; ring.
Qed.

Lemma angle_cases (v1 v2 : vec) :
  vector_2d_angle v1 v2
  = if Req_dec_T (norm v1 * norm v2) 0 then None
    else Some (trunc (degrees (arctan2 (cross v1 v2) (dot v1 v2)))).
Proof.
  destruct (Req_dec_T (norm v1 * norm v2) 0) as [E|E].
  - now apply vector_2d_angle_None, d_zero_iff.
  - now apply vector_2d_angle_Some.
Qed.

Lemma angle_scale_l (k : R) (v1 v2 : vec) :
  0 < k -> vector_2d_angle (scale k v1) v2 = vector_2d_angle v1 v2.
Proof.
  intros Hk. rewrite !angle_cases.
  assert (Hc : cross (scale k v1) v2 = k * cross v1 v2)
    by (unfold cross, scale; cbn [fst snd]; ring).
  assert (Hd : dot (scale k v1) v2 = k * dot v1 v2)
    by (unfold dot, scale; cbn [fst snd]; ring).
  rewrite Hc, Hd, arctan2_stretch by exact Hk.
  destruct (Req_dec_T (norm (scale k v1) * norm v2) 0) as [E|E],
    (Req_dec_T (norm v1 * norm v2) 0) as [E'|E']; trivial; exfalso.
  - apply E'. apply d_zero_iff. apply d_zero_iff in E as [E|E]; [left|now right].
    now apply (norm_scale_zero k).
  - apply E. apply d_zero_iff. apply d_zero_iff in E' as [E'|E']; [left|now right].
    now apply norm_scale_zero.
Qed.

Lemma angle_scale_r (k : R) (v1 v2 : vec) :
  0 < k -> vector_2d_angle v1 (scale k v2) = vector_2d_angle v1 v2.
Proof.
  intros Hk. rewrite !angle_cases.
  assert (Hc : cross v1 (scale k v2) = k * cross v1 v2)
    by (unfold cross, scale; cbn [fst snd]; ring).
  assert (Hd : dot v1 (scale k v2) = k * dot v1 v2)
    by (unfold dot, scale; cbn [fst snd]; ring).
  rewrite Hc, Hd, arctan2_stretch by exact Hk.
  destruct (Req_dec_T (norm v1 * norm (scale k v2)) 0) as [E|E],
    (Req_dec_T (norm v1 * norm v2) 0) as [E'|E']; trivial; exfalso.
  - apply E'. apply d_zero_iff. apply d_zero_iff in E as [E|E]; [now left|right].
    now apply (norm_scale_zero k).
  - apply E. apply d_zero_iff. apply d_zero_iff in E' as [E'|E']; [now left|right].
    now apply norm_scale_zero.
Qed.

Lemma angle_self (v : vec) : norm v <> 0 -> vector_2d_angle v v = Some 0%Z.
Proof.
  intros Hn. rewrite vector_2d_angle_Some by nra.
  assert (Hc : cross v v = 0) by (unfold cross; ring).
  assert (Hd : 0 < dot v v).
  { replace (dot v v) with (norm v * norm v)
      by (rewrite norm_sqr; unfold dot; ring).
    pose proof (norm_nonneg v). nra. }
  rewrite Hc. unfold arctan2. destruct (Rlt_dec 0 (dot v v)); [|contradiction].
  replace (0 / dot v v) with 0 by (field; lra).
  rewrite atan_0. unfold degrees.
  replace (0 * 180 / PI) with 0 by (pose proof PI_RGT_0; field; lra).
  f_equal. apply (trunc_IZR 0).
Qed.

Lemma angle_swap (v1 v2 : vec) (a : Z) :
  vector_2d_angle v1 v2 = Some a ->
  cross v1 v2 <> 0 \/ 0 < dot v1 v2 ->
  vector_2d_angle v2 v1 = Some (- a)%Z.
Proof.
  rewrite !angle_cases. intros E H.
  rewrite (Rmult_comm (norm v2)).
  destruct (Req_dec_T (norm v1 * norm v2) 0); [discriminate|].
  injection E as <-.
  replace (cross v2 v1) with (- cross v1 v2) by (unfold cross; ring).
  replace (dot v2 v1) with (dot v1 v2) by (unfold dot; ring).
  now rewrite arctan2_opp, degrees_opp, trunc_opp.
Qed.

End AngleSymmetry.

(** X12.  On real vectors, the angle of a non-zero vector with itself is
    0; stretching either vector by a positive factor changes nothing;
    and swapping the two vectors negates the angle, unless they point in
    exactly opposite directions (cross = 0 and dot < 0), where both
    orders give 180. *)
Theorem vector_2d_angle_symmetries :
  forall (v1 v2 : Angle.vec),
    (Angle.norm v1 <> 0%R -> Angle.vector_2d_angle v1 v1 = Some 0) /\
    (forall k : R, (0 < k)%R ->
        Angle.vector_2d_angle (scale k v1) v2 = Angle.vector_2d_angle v1 v2 /\
        Angle.vector_2d_angle v1 (scale k v2) = Angle.vector_2d_angle v1 v2) /\
    (forall a : Z,
        Angle.vector_2d_angle v1 v2 = Some a ->
        (Angle.cross v1 v2 <> 0%R \/ (0 < Angle.dot v1 v2)%R) ->
        Angle.vector_2d_angle v2 v1 = Some (- a)).
Proof.
  intros v1 v2. split; [|split].
  - apply AngleSymmetry.angle_self.
  - intros k Hk. split.
    + now apply AngleSymmetry.angle_scale_l.
    + now apply AngleSymmetry.angle_scale_r.
  - apply AngleSymmetry.angle_swap.
Qed.

Lemma vector_2d_angle_symmetries_witness :
  Angle.vector_2d_angle (0%R, 1%R) (1%R, 0%R) = Some (-90).
Proof.
  apply (proj2 (proj2 (vector_2d_angle_symmetries (1%R, 0%R) (0%R, 1%R))) 90).
  - rewrite AngleSpec.vector_2d_angle_Some.
    + unfold Angle.cross, Angle.dot; cbn [fst snd].
      replace (1 * 1 - 0 * 0)%R with 1%R by ring.
      replace (1 * 0 + 0 * 1)%R with 0%R by ring.
      rewrite AngleSpec.arctan2_one_zero, AngleSpec.degrees_half_pi.
      now rewrite AngleFacts.trunc_IZR.
    + unfold Angle.norm; cbn [fst snd].
      replace (1 * 1 + 0 * 0)%R with 1%R by ring.
      replace (0 * 0 + 1 * 1)%R with 1%R by ring.
      rewrite sqrt_1. lra.
  - left. unfold Angle.cross; cbn [fst snd]. lra.
Defined.

(** ** The deadband over a whole frame *)

Lemma smooth_list_error (cs : list cand) (st : gmap Z Z) :
  Forall2 (fun c x => servo_id x = cand_id c /\ name x = cand_name c /\
                      Z.abs (position x - cand_value c) < SMOOTHING_THRESHOLD)
    cs (fst (smooth_list cs st)).
Proof.
  revert st. induction cs as [|c cs IH]; intros st; cbn [smooth_list];
    [constructor|].
  assert (H1 : Z.abs (fst (smooth st (cand_id c) (cand_value c)) - cand_value c)
               < SMOOTHING_THRESHOLD).
  { unfold smooth. destruct (st !! cand_id c) as [last|];
      [destruct (Z.ltb_spec (Z.abs (last - cand_value c)) SMOOTHING_THRESHOLD)|];
      cbn [fst]; trivial;
      replace (cand_value c - cand_value c) with 0 by lia; reflexivity. }
  destruct (smooth st (cand_id c) (cand_value c)) as [p st1].
  specialize (IH st1). destruct (smooth_list cs st1) as [xs st2].
  cbn [fst] in *. constructor; [|exact IH]. now repeat split.
Qed.

Lemma smooth_list_fresh (cs : list cand) (st : gmap Z Z) :
  NoDup (map cand_id cs) ->
  Forall (fun c => st !! cand_id c = None) cs ->
  fst (smooth_list cs st) = map command_of_cand cs.
Proof.
  revert st. induction cs as [|c cs IH]; intros st Hnd Hst; cbn [smooth_list map];
    [reflexivity|].
  cbn [map] in Hnd. apply NoDup_cons in Hnd as [Hni Hnd].
  inversion Hst as [|? ? Hc Hcs]; subst.
  unfold smooth at 1. rewrite Hc.
  specialize (IH (<[cand_id c := cand_value c]> st) Hnd).
  destruct (smooth_list cs _) as [xs st2]. cbn [fst] in *.
  unfold command_of_cand at 1. f_equal. apply IH.
  rewrite List.Forall_forall in Hcs. apply List.Forall_forall. intros c' Hc'.
  rewrite lookup_insert_ne; [now apply Hcs|].
  intros E. apply Hni. rewrite E. apply list_elem_of_In. now apply in_map.
Qed.

Lemma smooth_list_hold (cs : list cand) (st : gmap Z Z) :
  Forall (within_deadband st) cs ->
  smooth_list cs st = (map (held_command st) cs, st).
Proof.
  induction cs as [|c cs IH]; intros Hcs; cbn [smooth_list map]; [reflexivity|].
  inversion Hcs as [|? ? (last & Hl & Hd) Hcs']; subst.
  unfold smooth. rewrite Hl. apply Z.ltb_lt in Hd. rewrite Hd.
  rewrite (IH Hcs'). unfold held_command at 2. now rewrite Hl.
Qed.

(** X14.  Over a whole frame the filter behaves as for one actuator.
    Every returned command stays within the threshold of the candidate
    computed for its actuator in this frame.  On a fresh engine the
    candidates are returned as they are.  And when every candidate lies
    within the deadband of the stored position, the stored positions are
    returned and the memory is left exactly as it was. *)
Theorem frame_deadband :
  forall (self : TonyPiPoseMimic) (landmarks : list Landmark) (width height : Z),
    let p := plan (full_body self) landmarks width height in
    let r := calculate_servo_commands landmarks width height self in
    match fst r with
    | Ok _ =>
        Forall2 (fun c x => servo_id x = cand_id c /\ name x = cand_name c /\
                            Z.abs (position x - cand_value c) < SMOOTHING_THRESHOLD)
          (fst p) (commands_of (fst r)) /\
        (last_servos self = ∅ ->
         commands_of (fst r) = map command_of_cand (fst p)) /\
        (Forall (within_deadband (last_servos self)) (fst p) ->
         commands_of (fst r) = map (held_command (last_servos self)) (fst p) /\
         snd r = self)
    | Raise _ => True
    end.
Proof.
  intros self landmarks width height. cbn zeta.
  rewrite calculate_servo_commands_nf. unfold frame_result. cbn [fst snd].
  destruct (snd (plan _ _ _ _)); [trivial|].
  rewrite commands_of_nonempty. split; [apply smooth_list_error|]. split.
  - intros He. apply smooth_list_fresh; [apply plan_ids_NoDup|].
    apply List.Forall_forall. intros c _. rewrite He. apply lookup_empty.
  - intros Hh. rewrite (smooth_list_hold _ _ Hh). cbn [fst snd].
    split; [reflexivity|]. now destruct self.
Qed.

Lemma t_pose_arms_only :
  fst (calculate_servo_commands t_pose 640 480 (init false))
  = Ok (Some [ mkServoCommand 15 500 "R_shoulder_side";
               mkServoCommand 14 500 "R_elbow";
               mkServoCommand 7 500 "L_shoulder_side";
               mkServoCommand 6 500 "L_elbow";
               mkServoCommand 16 312 "R_shoulder_fwd";
               mkServoCommand 8 700 "L_shoulder_fwd" ]).
Proof. eval_frame. vm_compute. reflexivity. Qed.

Lemma frame_deadband_witness :
  commands_of (fst (calculate_servo_commands t_pose 640 480 (init false)))
  = map command_of_cand (fst (plan false t_pose 640 480)).
Proof.
  pose proof (frame_deadband (init false) t_pose 640 480) as H. cbn zeta in H.
  rewrite t_pose_arms_only in H. rewrite t_pose_arms_only.
  destruct H as (_ & H & _). apply H. reflexivity.
Defined.

(** ** Drawing never fails *)

Lemma draw_connections_ok (points : list (Z * Z)) (connections : list (nat * nat))
  (self : TonyPiPoseMimic) :
  exists ops,
    draw_connections points connections self = (Ok ops, self) /\
    Forall (fun d => is_line d = true) ops /\
    length ops
    = length (List.filter
                (fun c => (fst c <? length points)%nat
                          && (snd c <? length points)%nat) connections).
Proof.
  induction connections as [|[s e] rest (more & IH & Hl & Hn)];
    cbn [draw_connections List.filter fst snd].
  - exists []. repeat split. constructor.
  - destruct (Nat.ltb_spec s (length points)) as [Hs|Hs];
      [destruct (Nat.ltb_spec e (length points)) as [He|He]|]; cbn [andb].
    + destruct (lookup_lt_is_Some_2 points s Hs) as [p Hp].
      destruct (lookup_lt_is_Some_2 points e He) as [q Hq].
      exists (line p q (255, 255, 255) 2 :: more).
      split; [|split; [now constructor|cbn; now rewrite Hn]].
      unfold bind, at_index. rewrite Hp, Hq. cbn. now rewrite IH.
    + exists more. split; [|split; trivial].
      unfold bind. cbn. now rewrite IH.
    + exists more. split; [|split; trivial].
      unfold bind. cbn. now rewrite IH.
Qed.

Lemma draw_highlights_ok (points : list (Z * Z)) (idxs : list nat)
  (self : TonyPiPoseMimic) :
  exists ops,
    draw_highlights points idxs self = (Ok ops, self) /\
    Forall (fun d => is_line d = false) ops /\
    length ops = length (List.filter (fun i => (i <? length points)%nat) idxs).
Proof.
  induction idxs as [|i rest (more & IH & Hl & Hn)];
    cbn [draw_highlights List.filter].
  - exists []. repeat split. constructor.
  - destruct (Nat.ltb_spec i (length points)) as [Hi|Hi].
    + destruct (lookup_lt_is_Some_2 points i Hi) as [p Hp].
      exists (circle p 8 (0, 255, 255) (-1) :: more).
      split; [|split; [now constructor|cbn; now rewrite Hn]].
      unfold bind, at_index. rewrite Hp. cbn. now rewrite IH.
    + exists more. split; [|split; trivial].
      unfold bind. cbn. now rewrite IH.
Qed.

Lemma filter_all {A} (f : A -> bool) (l : list A) :
  Forall (fun x => f x = true) l -> List.filter f l = l.
Proof.
  induction 1 as [|x l Hx _ IH]; cbn; [reflexivity|]. now rewrite Hx, IH.
Qed.

(** X15.  [draw_skeleton] never raises, whatever the number of
    landmarks, and leaves the engine untouched: every index it uses is
    guarded by a length test.  It draws one dot per landmark, and with
    all 33 landmarks present all 35 connections and 6 (arms-only) or 12
    (full-body) highlights; with no landmark it draws nothing. *)
Theorem draw_skeleton_never_raises :
  forall (self : TonyPiPoseMimic) (landmarks : list Landmark) (width height : Z),
    exists ops,
      draw_skeleton landmarks width height self = (Ok ops, self) /\
      (length landmarks <= length ops)%nat /\
      (landmarks = [] -> ops = []) /\
      ((33 <= length landmarks)%nat ->
       length (List.filter is_line ops) = 35%nat /\
       length ops
       = (35 + length landmarks + if full_body self then 12 else 6)%nat).
Proof.
  intros self landmarks width height. unfold draw_skeleton.
  set (points := map _ landmarks).
  assert (Hlen : length points = length landmarks) by apply length_map.
  destruct (draw_connections_ok points POSE_CONNECTIONS self)
    as (lines & E1 & Hl1 & Hn1).
  set (idxs := ([11; 12; 13; 14; 15; 16]
                ++ (if full_body self then [23; 24; 25; 26; 27; 28] else []))%nat).
  destruct (draw_highlights_ok points idxs self) as (hl & E2 & Hl2 & Hn2).
  exists (lines ++ map (fun pt => circle pt 4 (0, 255, 0) (-1)) points ++ hl).
  split; [|split; [|split]].
  - unfold bind. rewrite E1. fold idxs. now rewrite E2.
  - rewrite !length_app, length_map, Hlen. lia.
  - intros ->. subst points. cbn in *.
    destruct lines; [|discriminate]. destruct hl; [reflexivity|].
    subst idxs. destruct (full_body self); discriminate.
  - intros H33. rewrite Hlen in *.
    assert (Hc : length lines = 35%nat).
    { rewrite Hn1. rewrite filter_all; [reflexivity|].
      repeat constructor; cbn [fst snd]; apply andb_true_iff; split;
        apply Nat.ltb_lt; lia. }
    assert (Hh : length hl = if full_body self then 12%nat else 6%nat).
    { rewrite Hn2. subst idxs. rewrite filter_all.
      - destruct (full_body self); reflexivity.
      - destruct (full_body self); repeat constructor; apply Nat.ltb_lt; lia. }
    split.
    + rewrite !List.filter_app, !length_app, (filter_all _ _ Hl1), Hc.
      assert (Hd : forall l, List.filter is_line
                     (map (fun pt => circle pt 4 (0, 255, 0) (-1)) l) = []).
      { induction l; cbn; trivial. }
      rewrite Hd.
      assert (Hz : List.filter is_line hl = []).
      { clear -Hl2. induction Hl2 as [|d l Hd _ IH]; cbn; trivial.
        now rewrite Hd. }
      rewrite Hz. reflexivity.
    + rewrite !length_app, length_map, Hlen, Hc, Hh. lia.
Qed.

Lemma draw_skeleton_never_raises_witness :
  exists ops,
    draw_skeleton t_pose 640 480 (init true) = (Ok ops, init true) /\
    length ops = 80%nat.
Proof.
  destruct (draw_skeleton_never_raises (init true) t_pose 640 480)
    as (ops & E & _ & _ & H).
  exists ops. split; [exact E|].
  destruct H as [_ H]; [vm_compute; lia|]. exact H.
Defined.

(** ** The frame-rate meter *)

Lemma Qeq_bool_false (a b : Q) : Qeq_bool a b = false -> ~ (a == b)%Q.
Proof. intros H E. apply Qeq_bool_iff in E. congruence. Qed.

(** X16.  [FPS.update] always shifts the clock readings.  It raises
    [ZeroDivisionError] exactly when an earlier non-zero reading is
    followed by an equal one, and then keeps the rate.  The first
    reading after a zero one leaves the rate as it is.  Otherwise the new
    rate is the instantaneous rate 1/dt when the old rate is zero, and
    else one tenth of it plus nine tenths of the old rate, a value
    between the two. *)
Theorem FPS_update_spec :
  forall (now : Q) (self : FPS),
    let r := FPS_update now self in
    let dt := (now - current_time self)%Q in
    last_time (snd r) = current_time self /\
    current_time (snd r) = now /\
    match fst r with
    | inl ZeroDivisionError =>
        ~ (current_time self == 0)%Q /\ (now == current_time self)%Q /\
        fps (snd r) = fps self
    | inr f =>
        fps (snd r) = f /\
        ((current_time self == 0)%Q -> f = fps self) /\
        (~ (current_time self == 0)%Q ->
         ~ (dt == 0)%Q /\
         ((fps self == 0)%Q -> f == 1 / dt)%Q /\
         (~ (fps self == 0)%Q ->
          (f == (1 / dt) * (1 # 10) + fps self * (9 # 10))%Q /\
          (fps self <= 1 / dt -> fps self <= f <= 1 / dt)%Q /\
          (1 / dt <= fps self -> 1 / dt <= f <= fps self)%Q))
    end.
Proof.
  intros now self. cbn zeta. unfold FPS_update.
  destruct (Qeq_bool (current_time self) 0) eqn:E0.
  - cbn. apply Qeq_bool_iff in E0. repeat split; tauto.
  - apply Qeq_bool_false in E0.
    destruct (Qeq_bool (now - current_time self) 0) eqn:Ed.
    + cbn. apply Qeq_bool_iff in Ed. repeat split; trivial.
      now apply Qminus_zero_eq.
    + apply Qeq_bool_false in Ed. cbn [fst snd last_time current_time fps].
      split; [reflexivity|]. split; [reflexivity|]. split; [reflexivity|].
      split; [tauto|]. intros _. split; [exact Ed|].
      destruct (Qeq_bool (fps self) 0) eqn:Ef.
      * apply Qeq_bool_iff in Ef. split; [reflexivity|tauto].
      * apply Qeq_bool_false in Ef. split; [tauto|]. intros _.
        set (rate := (1 / (now - current_time self))%Q).
        split; [reflexivity|].
        clearbody rate. split; intros H; split; Lqa.lra.
Qed.

Lemma FPS_update_spec_witness :
  (fps (snd (FPS_update 3 (mkFPS 20 1 2))) == 1 * (1 # 10) + 20 * (9 # 10))%Q.
Proof.
  pose proof (FPS_update_spec 3 (mkFPS 20 1 2)) as H. cbn zeta in H.
  destruct H as (_ & _ & H).
  change (fst (FPS_update 3 (mkFPS 20 1 2)))
    with (@inr arith_exn Q (fps (snd (FPS_update 3 (mkFPS 20 1 2))))) in H.
  destruct H as (_ & _ & H). destruct H as (_ & _ & H); [discriminate|].
  destruct H as (H & _); [discriminate|]. exact H.
Defined.

(** ** Formatting a command *)

Local Open Scope string_scope.

Lemma append_cons (x : ascii) (a b : string) : String x a ++ b = String x (a ++ b).
Proof. reflexivity. Qed.

Lemma append_nil (b : string) : "" ++ b = b.
Proof. reflexivity. Qed.

Ltac push_append := rewrite ?append_cons, ?append_nil.

Lemma append_assoc_s (a b c : string) : (a ++ b) ++ c = a ++ b ++ c.
Proof. induction a as [|x a IH]; push_append; [reflexivity|]. now f_equal. Qed.

Lemma append_inj_l (a b c : string) : a ++ b = a ++ c -> b = c.
Proof.
  induction a as [|x a IH]; push_append; [trivial|]. intros [= H]. now apply IH.
Qed.

Lemma uint_all_num (d : Decimal.uint) : all_num (NilEmpty.string_of_uint d) = true.
Proof. induction d; cbn; trivial. Qed.

Lemma py_str_all_num (z : Z) : all_num (py_str z) = true.
Proof.
  unfold py_str, NilZero.string_of_int, NilZero.string_of_uint.
  destruct (Z.to_int z) as [d|d]; destruct d; cbn; trivial; apply uint_all_num.
Qed.

Lemma py_str_inj (a b : Z) : py_str a = py_str b -> a = b.
Proof.
  unfold py_str. intros H. apply to_int_inj.
  assert (Hn : forall z, Z.to_int z <> Decimal.Pos Decimal.Nil
                         /\ Z.to_int z <> Decimal.Neg Decimal.Nil).
  { intros [|p|p]; cbn; split; try discriminate; intros [= E];
      now apply Unsigned.to_uint_nonnil in E. }
  destruct (Hn a) as [Ha1 Ha2], (Hn b) as [Hb1 Hb2].
  pose proof (NilZero.isi _ Ha1 Ha2) as Ea.
  pose proof (NilZero.isi _ Hb1 Hb2) as Eb.
  rewrite H in Ea. congruence.
Qed.

(** A printed number ends where the next character is not part of a
    number. *)
Lemma num_prefix (d d' : string) (c c' : ascii) (s s' : string) :
  all_num d = true -> all_num d' = true ->
  is_num_char c = false -> is_num_char c' = false ->
  d ++ String c s = d' ++ String c' s' ->
  d = d' /\ c = c' /\ s = s'.
Proof.
  revert d'. induction d as [|x d IH]; intros [|x' d'] Hd Hd' Hc Hc';
    push_append.
  - now intros [= -> ->].
  - intros [= -> _]. cbn [all_num] in Hd'. apply andb_true_iff in Hd' as [Hx _]. congruence.
  - intros [= -> _]. cbn [all_num] in Hd. apply andb_true_iff in Hd as [Hx _]. congruence.
  - intros [= -> H]. cbn [all_num] in Hd, Hd'.
    apply andb_true_iff in Hd as [_ Hd]. apply andb_true_iff in Hd' as [_ Hd'].
    destruct (IH d' Hd Hd' Hc Hc' H) as (-> & -> & ->). now repeat split.
Qed.

Lemma repr_pair_prefix (p p' : Z * Z) (s s' : string) :
  repr_pair p ++ s = repr_pair p' ++ s' -> p = p' /\ s = s'.
Proof.
  destruct p as [a b], p' as [a' b']. unfold repr_pair; cbn [fst snd].
  rewrite !append_assoc_s. push_append. intros [= H].
  apply num_prefix in H as (Ha & _ & H); try apply py_str_all_num; trivial.
  injection H as H.
  apply num_prefix in H as (Hb & _ & H); try apply py_str_all_num; trivial.
  apply py_str_inj in Ha, Hb. now subst.
Qed.

Lemma join_pairs_cons (p : Z * Z) (l : list (Z * Z)) :
  join_pairs (p :: l)
  = repr_pair p ++ match l with [] => "" | _ => ", " ++ join_pairs l end.
Proof.
  destruct l; cbn [join_pairs]; [|reflexivity].
  induction (repr_pair p) as [|x r IH]; push_append; [reflexivity|].
  now rewrite <- IH.
Qed.

Lemma repr_pair_head (p : Z * Z) : exists t, repr_pair p = String "[" t.
Proof. unfold repr_pair. push_append. eauto. Qed.

Lemma join_pairs_inj (l l' : list (Z * Z)) (t t' : string) :
  join_pairs l ++ String "]" t = join_pairs l' ++ String "]" t' ->
  l = l' /\ t = t'.
Proof.
  revert l'. induction l as [|p l IH]; intros [|p' l'].
  - cbn [join_pairs]. push_append. now intros [= ->].
  - rewrite join_pairs_cons, append_assoc_s.
    destruct (repr_pair_head p') as [u ->]. cbn [join_pairs]. push_append.
    discriminate.
  - rewrite join_pairs_cons, append_assoc_s.
    destruct (repr_pair_head p) as [u ->]. cbn [join_pairs]. push_append.
    discriminate.
  - rewrite !join_pairs_cons, !append_assoc_s.
    intros H. apply repr_pair_prefix in H as [-> H].
    destruct l as [|q l], l' as [|q' l'].
    + revert H. push_append. intros [= ->]. now split.
    + revert H. rewrite !append_assoc_s. push_append. discriminate.
    + revert H. rewrite !append_assoc_s. push_append. discriminate.
    + revert H. rewrite !append_assoc_s. push_append. intros [= H].
      destruct (IH (q' :: l') H) as [-> ->]. now split.
Qed.

(** X17.  [format_tonypi_command] loses nothing: two command lists with
    the same text have the same actuator ids and positions in the same
    order.  The text of the empty list and of a two-command list are as
    Python prints them. *)
Theorem format_tonypi_command_injective :
  (forall commands commands' : list ServoCommand,
      format_tonypi_command commands = format_tonypi_command commands' ->
      map (fun c => (servo_id c, position c)) commands
      = map (fun c => (servo_id c, position c)) commands') /\
  format_tonypi_command [] = "board.bus_servo_set_position(0.1, [])" /\
  format_tonypi_command [ mkServoCommand 15 500 "R_shoulder_side";
                          mkServoCommand 14 125 "R_elbow" ]
  = "board.bus_servo_set_position(0.1, [[15, 500], [14, 125]])".
Proof.
  split; [|split; reflexivity].
  intros commands commands'. unfold format_tonypi_command, repr_pairs. cbn zeta.
  intros H. apply append_inj_l in H. revert H.
  rewrite !append_assoc_s. push_append. intros [= H].
  now apply join_pairs_inj in H as [H _].
Qed.

Lemma format_tonypi_command_injective_witness :
  map (fun c => (servo_id c, position c)) [mkServoCommand 7 500 "L_shoulder_side"]
  = map (fun c => (servo_id c, position c)) [mkServoCommand 7 500 "left"].
Proof.
  apply (proj1 format_tonypi_command_injective). reflexivity.
Defined.

Local Close Scope string_scope.

(** ** The servo receiver *)

Module ReceiverFacts.
Import Receiver.

Section Controller.

Variable board : Type.
Variable set_bus_servo_pulse : board -> pulse_call -> bool * board.

Lemma reset_loop_calls (servos : list Z) (time_ms : Z) (b : board) :
  let e := snd (reset_loop board set_bus_servo_pulse servos time_ms b) in
  calls e = map (fun servo_id => mkCall servo_id NEUTRAL_PULSE time_ms) servos /\
  warnings e `sublist_of` servos.
Proof.
  revert b. induction servos as [|servo_id rest IH]; intros b; cbn.
  - split; [reflexivity|constructor].
  - destruct (set_bus_servo_pulse b _) as [raised b1].
    specialize (IH b1). cbn zeta in IH.
    destruct (reset_loop _ _ rest time_ms b1) as [b2 e]. cbn in *.
    destruct IH as [IH1 IH2]. split; [now rewrite IH1|].
    destruct raised; [now apply sublist_skip|now apply sublist_cons].
Qed.

Section SetServos.

Variables K V : Type.
Variable int_key : K -> option Z.
Variable int_pulse : V -> option Z.


End SetServos.
End Controller.
End ReceiverFacts.

(** X18.  [reset_to_neutral] is best effort: with a board it calls
    [set_bus_servo_pulse] exactly once for every listed servo, in
    order, with the neutral pulse 500 and the given time, no matter
    which of these calls raise; the servos it warns about are among the
    listed ones.  Without a list it resets servos 7, 8, 15 and 16.  In
    test mode it makes no call. *)
Theorem reset_to_neutral_best_effort :
  forall (board : Type) (set_bus_servo_pulse : board -> Receiver.pulse_call -> bool * board)
         (servos : option (list Z)) (time_ms : Z) (b : board),
    let listed := default Receiver.DEFAULT_ENABLED_SERVOS servos in
    let e := snd (Receiver.reset_to_neutral board set_bus_servo_pulse
                    servos time_ms (Some b)) in
    Receiver.calls e
    = map (fun servo_id => Receiver.mkCall servo_id 500 time_ms) listed /\
    Receiver.warnings e `sublist_of` listed /\
    Receiver.DEFAULT_ENABLED_SERVOS = [7; 8; 15; 16] /\
    Receiver.reset_to_neutral board set_bus_servo_pulse servos time_ms None
    = (None, Receiver.mkEffects [] []).
Proof.
  intros board set_bus_servo_pulse servos time_ms b. cbn zeta.
  unfold Receiver.reset_to_neutral.
  pose proof (ReceiverFacts.reset_loop_calls board set_bus_servo_pulse
                (default Receiver.DEFAULT_ENABLED_SERVOS servos) time_ms b) as H.
  cbn zeta in H.
  replace (match servos with Some l => l | None => Receiver.DEFAULT_ENABLED_SERVOS end)
    with (default Receiver.DEFAULT_ENABLED_SERVOS servos) by now destruct servos.
  destruct (Receiver.reset_loop _ _ _ _ _) as [b' e]. cbn [snd] in *.
  destruct H as [H1 H2]. repeat split; trivial.
Qed.


